(** * louskuttelua: etymology.py

    A shallow embedding of [etymology.py], the script that fetches word
    etymologies from Kotus for each epithet, and the properties of its
    enrichment pipeline.

    Conventions of the embedding.
    - A Python [str] is the list of its Unicode code points ([pystr]).
    - A Python [set] of strings is a [gset pystr]; the order in which Python
      iterates over it is not determined by the program, so it is taken from
      the environment ([set_order]) and only assumed to enumerate the set.
    - A Python [dict] is an association list in insertion order, the order
      [json.dumps] writes it in.
    - Library calls whose code is not part of the script ([str.lower],
      [FinnSyll.split], [requests.get], [json.dumps], [json.load], the file
      system) are fields of the record [externals].
    - Exceptions and effects are threaded through the monad [M]: a
      computation maps a [world] to an [outcome] and the world it leaves
      behind; the world left by a raised exception is the one the terminated
      process leaves on disk and on the network. *)

From Stdlib Require Import Ascii String DecimalString.
From stdpp Require Import gmap list sorting.

(** ** Strings *)

Abbreviation pystr := (list N).

(** Code points of an ASCII literal. *)
Definition str (s : String.string) : pystr :=
  Ascii.N_of_ascii <$> String.list_ascii_of_string s.

(** Python compares strings by code point, lexicographically. *)
Fixpoint str_compare (s t : pystr) : comparison :=
  match s, t with
  | [], [] => Eq
  | [], _ :: _ => Lt
  | _ :: _, [] => Gt
  | a :: s', b :: t' =>
      match N.compare a b with
      | Eq => str_compare s' t'
      | c => c
      end
  end.

Definition str_ltb (s t : pystr) : bool :=
  match str_compare s t with Lt => true | _ => false end.

Definition str_leb (s t : pystr) : bool :=
  match str_compare s t with Gt => false | _ => true end.

Definition str_eqb (s t : pystr) : bool := bool_decide (s = t).

(** [s.split(sep)] for a one-character separator: never empty, the empty
    string splits into one empty piece, adjacent separators give empty
    pieces. *)
Fixpoint split (sep : N) (s : pystr) : list pystr :=
  match s with
  | [] => [[]]
  | c :: s' =>
      if N.eqb c sep then [] :: split sep s'
      else match split sep s' with
           | [] => [[c]]
           | p :: ps => (c :: p) :: ps
           end
  end.

(** [needle in haystack] on strings. *)
Fixpoint is_prefix (p s : pystr) : bool :=
  match p, s with
  | [], _ => true
  | _ :: _, [] => false
  | a :: p', b :: s' => N.eqb a b && is_prefix p' s'
  end.

Fixpoint is_substring (p s : pystr) : bool :=
  is_prefix p s ||
  match s with
  | [] => false
  | _ :: s' => is_substring p s'
  end.

(** [str(n)] of an integer. *)
Definition str_of_int (z : Z) : pystr :=
  str (NilEmpty.string_of_int (Z.to_int z)).

(** ** clean_epithet: the character class of the regular expression *)

Definition SPACE : N := 32.
Definition HYPHEN : N := 45.
Definition EQUALS : N := 61.

(** The class [a-zäåö -]; the source spells ä, å and ö as the single code
    points U+00E4, U+00E5 and U+00F6. *)
Definition permitted (c : N) : bool :=
  ((97 <=? c)%N && (c <=? 122)%N)
  || N.eqb c 228 || N.eqb c 229 || N.eqb c 246
  || N.eqb c SPACE || N.eqb c HYPHEN.

Definition keep_permitted (s : pystr) : pystr := List.filter permitted s.

(** ** JSON values, as [json.load] builds them *)

Inductive pynum :=
| PyInt (z : Z)
| PyFloat (bits : N).

#[warnings="-register-all"]
Inductive json :=
| JNull
| JBool (b : bool)
| JNum (n : pynum)
| JStr (s : pystr)
| JArr (l : list json)
| JObj (d : list (pystr * json)).

(** A dict with string keys, in insertion order. *)
Abbreviation dict := (list (pystr * json)).

Fixpoint dict_get (k : pystr) (d : dict) : option json :=
  match d with
  | [] => None
  | (k', v) :: d' => if str_eqb k' k then Some v else dict_get k d'
  end.

Definition dict_contains (k : pystr) (d : dict) : bool :=
  match dict_get k d with Some _ => true | None => false end.

(** [d[k] = v]: an existing key keeps its position, a new key goes last. *)
Fixpoint dict_set (k : pystr) (v : json) (d : dict) : dict :=
  match d with
  | [] => [(k, v)]
  | (k', v') :: d' =>
      if str_eqb k' k then (k, v) :: d' else (k', v') :: dict_set k v d'
  end.

Definition dict_keys (d : dict) : list pystr := d.*1.

(** [sorted(d.items())]: the keys of a dict are distinct, so the comparison
    of two items is decided by their keys and never reaches the values.
    The sort is stable. *)
Fixpoint insert_item (kv : pystr * json) (l : dict) : dict :=
  match l with
  | [] => [kv]
  | kv' :: l' =>
      if str_leb kv.1 kv'.1 then kv :: l else kv' :: insert_item kv l'
  end.

Fixpoint sorted (l : dict) : dict :=
  match l with
  | [] => []
  | kv :: l' => insert_item kv (sorted l')
  end.

(** ** Exceptions, the world and the monad *)

Inductive exn :=
| AttributeError
| TypeError
| KeyError
| RequestException
| JSONDecodeError
| FileNotFoundError
| OSError.

Inductive outcome (A : Type) :=
| Ok (a : A)
| Raise (e : exn).
Arguments Ok {A} a.
Arguments Raise {A} e.

(** The two queries the script sends to [Kotus._ajax_url]. *)
Inductive request :=
| QsAjaxResults (query : pystr)   (* {"m": "qs-ajax-results", "query": word} *)
| QsResults (prefix : pystr).     (* {"m": "qs-results", "prefix": word, "list_id": 1} *)

(** What the process does to the outside, in order. *)
Inductive event :=
| Get (r : request)          (* requests.get was called *)
| Write (doc : json)         (* etymologies.json now holds json.dumps(doc) *)
| WriteFailed (doc : json).  (* an attempt to write json.dumps(doc) raised *)

Record world := World {
  epithets_json : option pystr;      (* content of EPITHETS, if it is a file *)
  etymologies_json : option pystr;   (* content of ETYMOLOGIES, if it is a file *)
  trace : list event;
}.

Definition M (A : Type) : Type := world → outcome A * world.

Definition ret {A} (a : A) : M A := λ w, (Ok a, w).

Definition raise {A} (e : exn) : M A := λ w, (Raise e, w).

Definition bind {A B} (c : M A) (k : A → M B) : M B :=
  λ w, match c w with
       | (Ok a, w') => k a w'
       | (Raise e, w') => (Raise e, w')
       end.

Notation "x <- c ;; k" := (bind c (λ x, k))
  (at level 100, c at next level, right associativity).

Definition lift {A} (o : outcome A) : M A := λ w, (o, w).

(** A [for] loop threading the loop-carried value [s]. *)
Fixpoint for_each {A S} (l : list A) (body : A → S → M S) (s : S) : M S :=
  match l with
  | [] => ret s
  | x :: l' => s' <- body x s ;; for_each l' body s'
  end.

Definition emit (ev : event) (w : world) : world :=
  World (epithets_json w) (etymologies_json w) (trace w ++ [ev]).

(** ** The environment *)

(** An entry of the ["record"] list of a qs-ajax-results answer. *)
Record suggestion := Suggestion { value : pystr }.

(** An entry of the ["record"] list of a qs-results answer. *)
Record article := Article {
  hakusana : pystr;
  selite : pystr;
  etym_id : Z;
}.

(** How a write to ETYMOLOGIES can go wrong. *)
Inductive fault :=
| NoFault
| OpenFails             (* open(..., "w") raises: the file is not touched *)
| WriteFails (n : nat). (* the file was truncated, [n] characters reached it *)

(** The answers of the outside world.  Answers may depend on the moment of
    the call, which is the number of events so far.  [None] from a Kotus
    query is a raised exception (time-out, connection error, unparsable
    body, and for qs-results also the error status [raise_for_status]
    rejects). *)
Record externals := Externals {
  str_lower : pystr → pystr;
  finn_syll_split : pystr → pystr;
  set_order : gset pystr → list pystr;
  qs_ajax_results : nat → pystr → option (list suggestion);
  qs_results : nat → pystr → option (list article);
  json_dumps : json → pystr;
  json_loads : pystr → option json;
  io_fault : nat → fault;
}.

(** Iterating over a set visits each of its elements once. *)
Definition set_order_ok (X : externals) : Prop :=
  ∀ s : gset pystr, set_order X s ≡ₚ elements s.

(** ** Dynamic typing: the operations the script applies to loaded JSON *)

(** [word in x]. *)
Definition py_contains (word : pystr) (x : json) : outcome bool :=
  match x with
  | JObj d => Ok (dict_contains word d)
  | JArr l =>
      Ok (existsb (λ e, match e with JStr s => str_eqb s word | _ => false end) l)
  | JStr s => Ok (is_substring word s)
  | JNull | JBool _ | JNum _ => Raise TypeError
  end.

(** [x[word] = v]. *)
Definition py_setitem (x : json) (word : pystr) (v : json) : outcome json :=
  match x with
  | JObj d => Ok (JObj (dict_set word v d))
  | _ => Raise TypeError
  end.

(** [x.items()]. *)
Definition py_items (x : json) : outcome dict :=
  match x with
  | JObj d => Ok d
  | _ => Raise AttributeError
  end.

(** [x[key]] for a string key. *)
Definition py_getitem (x : json) (key : pystr) : outcome json :=
  match x with
  | JObj d =>
      match dict_get key d with
      | Some v => Ok v
      | None => Raise KeyError
      end
  | _ => Raise TypeError
  end.

(** [x.get(key, {})]: lists and dicts are unhashable keys; a key that is
    not a string is never found, the keys of a loaded document being
    strings. *)
Definition py_get (x : json) (key : json) : outcome json :=
  match x with
  | JObj d =>
      match key with
      | JStr s =>
          match dict_get s d with
          | Some v => Ok v
          | None => Ok (JObj [])
          end
      | JArr _ | JObj _ => Raise TypeError
      | JNull | JBool _ | JNum _ => Ok (JObj [])
      end
  | _ => Raise AttributeError
  end.

(** The values [for e in x] visits. *)
Definition py_iter (x : json) : outcome (list json) :=
  match x with
  | JArr l => Ok l
  | JObj d => Ok (JStr <$> dict_keys d)
  | JStr s => Ok ((λ c, JStr [c]) <$> s)
  | JNull | JBool _ | JNum _ => Raise TypeError
  end.

(** ** The script *)

Definition ETYMOLOGIES_KEY : pystr := str "etymologies".
Definition EPITHETS_KEY : pystr := str "epithets".

Record Etymology := mkEtymology {
  definition : pystr;
  url : pystr;
}.

Section Script.

Context (X : externals).

(** Re-fetch and update existing etymologies and not only missing ones;
    [False] in the source. *)
Context (OVERWRITE_EXISTING : bool).

Definition now (w : world) : nat := length (trace w).

(** [Kotus._etym_link.format(etym_id=...)]. *)
Definition etym_link (etym_id : Z) : pystr :=
  str "https://kaino.kotus.fi/ses/?p=article&etym_id=" ++ str_of_int etym_id.

Definition get_qs_ajax_results (word : pystr) : M (list suggestion) :=
  λ w, match qs_ajax_results X (now w) word with
       | Some record => (Ok record, emit (Get (QsAjaxResults word)) w)
       | None => (Raise RequestException, emit (Get (QsAjaxResults word)) w)
       end.

Definition get_qs_results (word : pystr) : M (list article) :=
  λ w, match qs_results X (now w) word with
       | Some record => (Ok record, emit (Get (QsResults word)) w)
       | None => (Raise RequestException, emit (Get (QsResults word)) w)
       end.

(** [Kotus.word_exists] *)
Definition word_exists (word : pystr) : M bool :=
  record <- get_qs_ajax_results word ;;
  ret (existsb (λ e, str_eqb (value e) word) record).

(** [Kotus.search] *)
Definition search (word : pystr) : M (option Etymology) :=
  found <- word_exists word ;;
  if negb found then ret None
  else
    record <- get_qs_results word ;;
    match List.find (λ e, str_eqb (hakusana e) word) record with
    | None => ret None
    | Some e => ret (Some (mkEtymology (selite e) (etym_link (etym_id e))))
    end.

Definition clean_epithet (epithet : pystr) : pystr :=
  keep_permitted (str_lower X epithet).

(** [finn_syll.split(segment).split("=")] *)
Definition compound_words (segment : pystr) : list pystr :=
  split EQUALS (finn_syll_split X segment).

Definition to_words (epithet : pystr) : gset pystr :=
  let segments : gset pystr := list_to_set (split SPACE epithet) in
  foldl
    (λ (segments : gset pystr) segment,
       if (1 <? length (compound_words segment))%nat
       then segments ∪ list_to_set (compound_words segment)
       else segments)
    segments (set_order X segments).

Definition etymology_json (etymology : option Etymology) : json :=
  match etymology with
  | Some e =>
      JObj [(str "definition", JStr (definition e)); (str "url", JStr (url e))]
  | None => JNull
  end.

(** The body of the loop over the words of [search_etymologies]. *)
Definition search_word (word : pystr) (epithet_etymologies : json) : M json :=
  present <- lift (py_contains word epithet_etymologies) ;;
  if present && negb OVERWRITE_EXISTING then ret epithet_etymologies
  else
    etymology <- search word ;;
    lift (py_setitem epithet_etymologies word (etymology_json etymology)).

Definition search_etymologies (epithet : json) (epithet_etymologies : json)
  : M json :=
  match epithet with
  | JStr epithet =>
      let cleaned_epithet := clean_epithet epithet in
      let words := to_words cleaned_epithet in
      epithet_etymologies <-
        for_each (set_order X words) search_word epithet_etymologies ;;
      items <- lift (py_items epithet_etymologies) ;;
      ret (JObj (sorted items))
  | _ => raise AttributeError   (* epithet.lower() *)
  end.

(** [with open(ETYMOLOGIES, "w") as file: file.write(json.dumps(root))] *)
Definition persist (etymologies_root : json) : M unit :=
  λ w, match io_fault X (now w) with
       | NoFault =>
           (Ok (),
            World (epithets_json w) (Some (json_dumps X etymologies_root))
                  (trace w ++ [Write etymologies_root]))
       | OpenFails => (Raise OSError, emit (WriteFailed etymologies_root) w)
       | WriteFails n =>
           (Raise OSError,
            World (epithets_json w)
                  (Some (take n (json_dumps X etymologies_root)))
                  (trace w ++ [WriteFailed etymologies_root]))
       end.

(** [etymologies_root.setdefault("etymologies", {})]: the value under the
    key and the root dict afterwards. *)
Definition setdefault_etymologies (etymologies_root : json)
  : outcome (json * dict) :=
  match etymologies_root with
  | JObj d =>
      match dict_get ETYMOLOGIES_KEY d with
      | Some etymologies => Ok (etymologies, d)
      | None => Ok (JObj [], d ++ [(ETYMOLOGIES_KEY, JObj [])])
      end
  | _ => Raise AttributeError
  end.

(** [etymologies[epithet] = v]; [etymologies] is a dict and [epithet] a
    string when the script gets here. *)
Definition store_epithet (etymologies : json) (epithet : json) (v : json)
  : outcome json :=
  match etymologies, epithet with
  | JObj d, JStr s => Ok (JObj (dict_set s v d))
  | _, _ => Raise TypeError
  end.

(** The root document while [etymologies] is the object under its
    "etymologies" key. *)
Definition root_with (root : dict) (etymologies : json) : json :=
  JObj (dict_set ETYMOLOGIES_KEY etymologies root).

(** The first two lines of the loop over the epithets: the submap of the
    epithet is fetched, completed and stored back. *)
Definition resolve_epithet (epithet : json) (etymologies : json) : M json :=
  epithet_etymologies <- lift (py_get etymologies epithet) ;;
  found <- search_etymologies epithet epithet_etymologies ;;
  lift (store_epithet etymologies epithet found).

(** The body of the loop over the epithets of [update_etymologies]. *)
Definition update_epithet (root : dict) (epithet : json) (etymologies : json)
  : M json :=
  etymologies <- resolve_epithet epithet etymologies ;;
  _ <- persist (root_with root etymologies) ;;
  ret etymologies.

(** [update_etymologies] mutates its first argument; the embedding returns
    the two documents as they are when the function returns. *)
Definition update_etymologies (etymologies_root epithets_root : json)
  : M (json * json) :=
  r <- lift (setdefault_etymologies etymologies_root) ;;
  let '(etymologies, root) := r in
  epithets <- lift (py_getitem epithets_root EPITHETS_KEY) ;;
  epithets <- lift (py_iter epithets) ;;
  etymologies <- for_each epithets (update_epithet root) etymologies ;;
  ret (root_with root etymologies, epithets_root).

Definition load (file : option pystr) : M json :=
  match file with
  | None => raise FileNotFoundError
  | Some text =>
      match json_loads X text with
      | Some doc => ret doc
      | None => raise JSONDecodeError
      end
  end.

Definition main : M unit :=
  λ w,
    (epithets_root <- load (epithets_json w) ;;
     etymologies_root <-
       (λ w, match etymologies_json w with
             | Some text => load (Some text) w
             | None => ret (JObj []) w
             end) ;;
     _ <- update_etymologies etymologies_root epithets_root ;;
     ret ()) w.

End Script.

(** ** Predicates used in the statements *)

(** A dict as Python holds it: no key twice. *)
Definition distinct_keys (d : dict) : Prop := NoDup (dict_keys d).

Definition keys_sorted (d : dict) : Prop :=
  Sorted (λ a b, str_leb a b = true) (dict_keys d).

Definition keys_strictly_sorted (d : dict) : Prop :=
  Sorted (λ a b, str_ltb a b = true) (dict_keys d).

Definition is_get (ev : event) : Prop :=
  match ev with Get _ => True | _ => False end.

Definition is_write (ev : event) : Prop :=
  match ev with Get _ => False | _ => True end.

(** [w'] comes after [w]: EPITHETS is as it was and the events in between
    all satisfy [P]. *)
Definition extends (P : event → Prop) (w w' : world) : Prop :=
  epithets_json w' = epithets_json w
  ∧ ∃ evs, trace w' = trace w ++ evs ∧ Forall P evs.

(** Nothing but requests happened between [w] and [w']. *)
Definition reads_only (w w' : world) : Prop :=
  extends is_get w w' ∧ etymologies_json w' = etymologies_json w.

(** Whatever its outcome, [c] leaves a world related to the one it started
    in. *)
Definition preserves {A} (R : relation world) (c : M A) : Prop :=
  ∀ w, R w (c w).2.

(** The store holds a sorted submap for the epithet with every word the
    loop of [search_etymologies] visits for it. *)
Definition resolved (X : externals) (epithet etymologies : json) : Prop :=
  ∃ s d sub,
    epithet = JStr s ∧ etymologies = JObj d
    ∧ dict_get s d = Some (JObj sub)
    ∧ keys_sorted sub
    ∧ ∀ word, word ∈ set_order X (to_words X (clean_epithet X s)) →
              dict_contains word sub = true.

(** The documents that differ from [root] at most under "etymologies". *)
Definition same_but_etymologies (root doc : json) : Prop :=
  ∃ d d',
    root = JObj d ∧ doc = JObj d'
    ∧ (∀ k, k ≠ ETYMOLOGIES_KEY → dict_get k d' = dict_get k d)
    ∧ dict_keys d'
      = if dict_contains ETYMOLOGIES_KEY d then dict_keys d
        else dict_keys d ++ [ETYMOLOGIES_KEY].


(** Resumability at any interruption: whenever the loop has completed the
    epithets [completed] and the turn of the next epithet raises, the file
    holds the document as it was after [completed]. *)
Definition survives_interruption
    (X : externals) (OVERWRITE_EXISTING : bool) (root : dict)
    (completed : list json) (next : json) (etymologies : json) (w : world)
  : Prop :=
  ∀ etymologies1 w1 e w2,
    completed ≠ [] →
    for_each completed (update_epithet X OVERWRITE_EXISTING root)
      etymologies w = (Ok etymologies1, w1) →
    update_epithet X OVERWRITE_EXISTING root next etymologies1 w1
    = (Raise e, w2) →
    etymologies_json w2 = Some (json_dumps X (root_with root etymologies1)).

(** ** The scenario of "vanha akka" *)

Definition vanha_akka_input : json :=
  JObj [(EPITHETS_KEY, JArr [JStr (str "vanha akka")])].

Definition vanha_akka_store : json :=
  JObj [(str "vanha akka",
         JObj [(str "akka", JNull);
               (str "vanha",
                JObj [(str "definition", JStr (str "old"));
                      (str "url",
                       JStr (str "https://kaino.kotus.fi/ses/?p=article&etym_id=5"))])])].

(** At any moment the service lists the word itself among the
    suggestions. *)
Definition always_exists (X : externals) (word : pystr) : Prop :=
  ∀ n, ∃ suggestions,
    qs_ajax_results X n word = Some suggestions
    ∧ existsb (λ e, str_eqb (value e) word) suggestions = true.

Definition never_exists (X : externals) (word : pystr) : Prop :=
  ∀ n, ∃ suggestions,
    qs_ajax_results X n word = Some suggestions
    ∧ existsb (λ e, str_eqb (value e) word) suggestions = false.

(** At any moment the first article under the headword is [e]. *)
Definition always_has_article (X : externals) (word : pystr) (e : article)
  : Prop :=
  ∀ n, ∃ record,
    qs_results X n word = Some record
    ∧ List.find (λ e, str_eqb (hakusana e) word) record = Some e.

Definition never_faults (X : externals) : Prop :=
  ∀ n, io_fault X n = NoFault.

(** ** A deterministic environment, for running the script on examples *)

Module Fake.

(** Lower-casing of the ASCII capitals and of Ä, Å and Ö. *)
Definition lower (s : pystr) : pystr :=
  (λ c, if ((65 <=? c)%N && (c <=? 90)%N)
           || N.eqb c 196 || N.eqb c 197 || N.eqb c 214
        then (c + 32)%N else c) <$> s.

(** A splitter that knows one compound. *)
Definition finn_split (s : pystr) : pystr :=
  if str_eqb s (str "vanhapiika") then str "vanha=piika" else s.

(** "vanha" and "piika" are reported to exist; asking for "virhe" times
    out. *)
Definition ajax (n : nat) (word : pystr) : option (list suggestion) :=
  if str_eqb word (str "virhe") then None
  else if str_eqb word (str "vanha")
  then Some [Suggestion (str "vanhahko"); Suggestion (str "vanha")]
  else if str_eqb word (str "piika")
  then Some [Suggestion (str "piika")]
  else Some [].

(** Only "vanha" has an article under its own headword. *)
Definition results (n : nat) (word : pystr) : option (list article) :=
  if str_eqb word (str "vanha")
  then Some [Article (str "vanhahko") (str "oldish") 7;
             Article (str "vanha") (str "old") 5]
  else if str_eqb word (str "piika")
  then Some [Article (str "piikki") (str "thorn") 9]
  else Some [].

Definition QUOTE : N := 34.

Definition quote (s : pystr) : pystr := QUOTE :: s ++ [QUOTE].

Fixpoint join (sep : pystr) (l : list pystr) : pystr :=
  match l with
  | [] => []
  | [x] => x
  | x :: l' => x ++ sep ++ join sep l'
  end.

(** A one-line serializer; escapes are left out. *)
Fixpoint dumps (j : json) : pystr :=
  match j with
  | JNull => str "null"
  | JBool true => str "true"
  | JBool false => str "false"
  | JNum (PyInt z) => str_of_int z
  | JNum (PyFloat bits) => str "float.fromhex:" ++ str_of_int (Z.of_N bits)
  | JStr s => quote s
  | JArr l => str "[" ++ join (str ", ") (List.map dumps l) ++ str "]"
  | JObj d =>
      str "{"
      ++ join (str ", ")
           (List.map (λ kv, match kv with
                            | (k, v) => quote k ++ str ": " ++ dumps v
                            end) d)
      ++ str "}"
  end.

Definition epithets_doc : json :=
  JObj [(EPITHETS_KEY, JArr [JStr (str "Vanha akka!"); JStr (str "vanhapiika")])].

(** A parser that knows two documents. *)
Definition loads (text : pystr) : option json :=
  if str_eqb text (dumps epithets_doc) then Some epithets_doc
  else if str_eqb text (str "{}") then Some (JObj [])
  else None.

Definition env (faults : nat → fault) : externals :=
  Externals lower finn_split elements ajax results dumps loads faults.

Definition no_faults : nat → fault := λ _, NoFault.

(** Every write fails after [n] characters. *)
Definition disk_full (n : nat) : nat → fault := λ _, WriteFails n.

(** The write at moment [t] fails at once, the others go through. *)
Definition fails_at (t : nat) : nat → fault :=
  λ n, if Nat.eqb n t then WriteFails 0 else NoFault.

Definition stored_doc : json :=
  JObj [(str "version", JNum (PyInt 1));
        (ETYMOLOGIES_KEY, JObj [(str "akka", JObj [(str "akka", JNull)])])].

Definition world0 : world := World (Some (dumps epithets_doc)) None [].

(** A world in which ETYMOLOGIES holds [stored_doc]. *)
Definition world1 : world :=
  World (Some (dumps epithets_doc)) (Some (dumps stored_doc)) [].

(** The root dict once [setdefault] has run on an empty document. *)
Definition root0 : dict := [(ETYMOLOGIES_KEY, JObj [])].

(** The store and the world after the turn of "Vanha akka!". *)
Definition etymologies1 : json :=
  JObj [(str "Vanha akka!",
         JObj [(str "akka", JNull);
               (str "vanha",
                JObj [(str "definition", JStr (str "old"));
                      (str "url", JStr (etym_link 5))])])].

(** The document and the world after the run on [epithets_doc]. *)
Definition root1 : json :=
  Eval vm_compute in
    match (update_etymologies (env no_faults) false (JObj []) epithets_doc
             world0).1 with
    | Ok (root, _) => root
    | Raise _ => JNull
    end.

Definition world_after_run : world :=
  Eval vm_compute in
    (update_etymologies (env no_faults) false (JObj []) epithets_doc world0).2.

(** The run on [stored_doc], outcome and world. *)
Definition stored_run : outcome (json * json) * world :=
  Eval vm_compute in
    update_etymologies (env no_faults) false stored_doc epithets_doc world1.

Definition world_after_first : world :=
  World (Some (dumps epithets_doc)) (Some (dumps (root_with root0 etymologies1)))
    [Get (QsAjaxResults (str "akka"));
     Get (QsAjaxResults (str "vanha"));
     Get (QsResults (str "vanha"));
     Write (root_with root0 etymologies1)].

End Fake.

(** ** Further predicates and example environments *)

(** The word a request asks about. *)
Definition request_word (r : request) : pystr :=
  match r with
  | QsAjaxResults query => query
  | QsResults prefix => prefix
  end.

Definition is_write_b (ev : event) : bool :=
  match ev with Write _ => true | _ => false end.

(** The answers of the service do not depend on the moment of the call. *)
Definition stateless (X : externals) : Prop :=
  ∀ n m word,
    qs_ajax_results X n word = qs_ajax_results X m word
    ∧ qs_results X n word = qs_results X m word.

(** Two environments that lower-case, split and answer alike; they may
    iterate over sets in different orders. *)
Definition same_service (X Y : externals) : Prop :=
  (∀ s, str_lower X s = str_lower Y s)
  ∧ (∀ s, finn_syll_split X s = finn_syll_split Y s)
  ∧ (∀ n word, qs_ajax_results X n word = qs_ajax_results Y n word)
  ∧ (∀ n word, qs_results X n word = qs_results Y n word).



Module Fake2.

(** The environment of [Fake], iterating over sets the other way
    round. *)
Definition env_reversed (faults : nat → fault) : externals :=
  Externals Fake.lower Fake.finn_split (λ s, reverse (elements s))
    Fake.ajax Fake.results Fake.dumps Fake.loads faults.

(** A parser that also knows the document [Fake.root1]. *)
Definition loads (text : pystr) : option json :=
  if str_eqb text (Fake.dumps Fake.root1) then Some Fake.root1
  else Fake.loads text.

Definition env_reloading (faults : nat → fault) : externals :=
  Externals Fake.lower Fake.finn_split elements Fake.ajax Fake.results
    Fake.dumps loads faults.

(** The turn of "Vanha akka!" on [Fake.stored_doc]: the document the
    turn writes and the world in which it opens the file, which then holds
    [Fake.stored_doc]. *)
Definition written_doc : json :=
  JObj [(str "version", JNum (PyInt 1));
        (ETYMOLOGIES_KEY,
         JObj [(str "akka", JObj [(str "akka", JNull)]);
               (str "Vanha akka!",
                JObj [(str "akka", JNull);
                      (str "vanha",
                       JObj [(str "definition", JStr (str "old"));
                             (str "url", JStr (etym_link 5))])])])].

Definition world_before_write : world :=
  World (Some (Fake.dumps Fake.epithets_doc))
    (Some (Fake.dumps Fake.stored_doc))
    [Get (QsAjaxResults (str "akka"));
     Get (QsAjaxResults (str "vanha"));
     Get (QsResults (str "vanha"))].

End Fake2.

(** [w'] comes after [w]: EPITHETS is as it was, and ETYMOLOGIES too
    unless a write was tried in between. *)
Definition leaves_files (w w' : world) : Prop :=
  epithets_json w' = epithets_json w
  ∧ ∃ evs, trace w' = trace w ++ evs
      ∧ (Forall is_get evs → etymologies_json w' = etymologies_json w).

(** A turn of the loop over the epithets that only writes the file. *)
Definition persist_only (X : externals) (root : dict)
    (epithet : json) (etymologies : json) : M json :=
  _ <- persist X (root_with root etymologies) ;; ret etymologies.



(** * Properties *)

(** ** The order on strings *)

Lemma str_compare_refl s : str_compare s s = Eq.
Proof. induction s as [|a s IH]; simpl; [done|]. by rewrite N.compare_refl. Qed.

Lemma str_compare_eq s t : str_compare s t = Eq → s = t.
Proof.
  revert t; induction s as [|a s IH]; intros [|b t]; simpl; try done.
  destruct (N.compare_spec a b) as [->| |]; try done.
  intros H. by rewrite (IH _ H).
Qed.

Lemma str_compare_antisym s t : str_compare t s = CompOpp (str_compare s t).
Proof.
  revert t; induction s as [|a s IH]; intros [|b t]; simpl; try done.
  rewrite (N.compare_antisym a b).
  destruct (N.compare a b); simpl; auto.
Qed.

Lemma str_compare_lt_trans s t u :
  str_compare s t = Lt → str_compare t u = Lt → str_compare s u = Lt.
Proof.
  revert t u; induction s as [|a s IH]; intros [|b t] [|c u]; simpl; try done.
  destruct (N.compare_spec a b) as [->|Hab|Hab]; try done.
  - destruct (N.compare_spec b c) as [->|Hbc|Hbc]; try done. apply IH.
  - destruct (N.compare_spec b c) as [->|Hbc|Hbc]; try done; intros _ _.
    + by apply N.compare_lt_iff in Hab as ->.
    + assert (a < c)%N as Hac by lia. by apply N.compare_lt_iff in Hac as ->.
Qed.

Lemma str_leb_refl s : str_leb s s = true.
Proof. unfold str_leb. by rewrite str_compare_refl. Qed.

Lemma str_leb_total s t : str_leb s t = false → str_ltb t s = true.
Proof.
  unfold str_leb, str_ltb. rewrite (str_compare_antisym s t).
  by destruct (str_compare s t).
Qed.

Lemma str_ltb_leb s t : str_ltb s t = true → str_leb s t = true.
Proof. unfold str_leb, str_ltb. by destruct (str_compare s t). Qed.

Lemma str_leb_ne_ltb s t : str_leb s t = true → s ≠ t → str_ltb s t = true.
Proof.
  unfold str_leb, str_ltb. destruct (str_compare s t) eqn:E; try done.
  intros _ Hne. by apply str_compare_eq in E.
Qed.

Lemma str_ltb_trans s t u :
  str_ltb s t = true → str_ltb t u = true → str_ltb s u = true.
Proof.
  unfold str_ltb.
  destruct (str_compare s t) eqn:E1; try done.
  destruct (str_compare t u) eqn:E2; try done.
  by rewrite (str_compare_lt_trans _ _ _ E1 E2).
Qed.

Lemma str_ltb_irrefl s : str_ltb s s = false.
Proof. unfold str_ltb. by rewrite str_compare_refl. Qed.

Lemma str_eqb_eq s t : str_eqb s t = true ↔ s = t.
Proof. unfold str_eqb. apply bool_decide_eq_true. Qed.

Lemma str_eqb_refl s : str_eqb s s = true.
Proof. by apply str_eqb_eq. Qed.

Lemma str_eqb_ne s t : s ≠ t → str_eqb s t = false.
Proof. unfold str_eqb. apply bool_decide_eq_false. Qed.

(** ** Dicts *)

Lemma dict_get_set_eq k v d : dict_get k (dict_set k v d) = Some v.
Proof.
  induction d as [|[k' v'] d IH]; simpl.
  - by rewrite str_eqb_refl.
  - destruct (str_eqb k' k) eqn:E; simpl; [by rewrite str_eqb_refl|].
    by rewrite E.
Qed.

Lemma dict_get_set_ne k k' v d :
  k ≠ k' → dict_get k' (dict_set k v d) = dict_get k' d.
Proof.
  intros Hne. induction d as [|[k0 v0] d IH]; simpl.
  - by rewrite str_eqb_ne.
  - destruct (str_eqb k0 k) eqn:E; simpl.
    + apply str_eqb_eq in E as ->. by rewrite !str_eqb_ne.
    + by rewrite IH.
Qed.

Lemma dict_set_same k v d : dict_get k d = Some v → dict_set k v d = d.
Proof.
  induction d as [|[k0 v0] d IH]; simpl; [done|].
  destruct (str_eqb k0 k) eqn:E.
  - apply str_eqb_eq in E as ->. by intros [= ->].
  - intros H. by rewrite IH.
Qed.

Lemma dict_set_idem k v v' d :
  dict_set k v (dict_set k v' d) = dict_set k v d.
Proof.
  induction d as [|[k0 v0] d IH]; simpl.
  - by rewrite str_eqb_refl.
  - destruct (str_eqb k0 k) eqn:E; simpl; [by rewrite str_eqb_refl|].
    by rewrite E, IH.
Qed.

Lemma dict_set_absent k v d :
  dict_get k d = None → dict_set k v d = d ++ [(k, v)].
Proof.
  induction d as [|[k0 v0] d IH]; simpl; [done|].
  destruct (str_eqb k0 k); [done|]. intros H. by rewrite IH.
Qed.

Lemma dict_contains_keys k d : dict_contains k d = true ↔ k ∈ dict_keys d.
Proof.
  unfold dict_contains, dict_keys.
  induction d as [|[k0 v0] d IH]; csimpl.
  - split; [done|]. by intros ?%elem_of_nil.
  - rewrite elem_of_cons. destruct (str_eqb k0 k) eqn:E.
    + apply str_eqb_eq in E. split; auto.
    + rewrite IH. split; [auto|]. intros [->|?]; [|done].
      by rewrite str_eqb_refl in E.
Qed.

Lemma dict_keys_set k v d :
  dict_keys (dict_set k v d)
  = if dict_contains k d then dict_keys d else dict_keys d ++ [k].
Proof.
  unfold dict_contains, dict_keys.
  induction d as [|[k0 v0] d IH]; csimpl; [done|].
  destruct (str_eqb k0 k) eqn:E; csimpl.
  - apply str_eqb_eq in E. by subst.
  - rewrite IH. by destruct (dict_get k d).
Qed.

Lemma dict_contains_set k k' v d :
  dict_contains k' (dict_set k v d)
  = if str_eqb k k' then true else dict_contains k' d.
Proof.
  unfold dict_contains. destruct (str_eqb k k') eqn:E.
  - apply str_eqb_eq in E as ->. by rewrite dict_get_set_eq.
  - rewrite dict_get_set_ne; [done|]. intros ->. by rewrite str_eqb_refl in E.
Qed.

Lemma distinct_keys_set k v d :
  distinct_keys d → distinct_keys (dict_set k v d).
Proof.
  unfold distinct_keys. intros Hd. rewrite dict_keys_set.
  destruct (dict_contains k d) eqn:E; [done|].
  apply NoDup_app. split_and!; [done| |apply NoDup_singleton].
  intros x Hx ->%list_elem_of_singleton.
  apply dict_contains_keys in Hx. congruence.
Qed.

(** ** sorted *)

Lemma insert_item_perm kv l : insert_item kv l ≡ₚ kv :: l.
Proof.
  induction l as [|kv' l IH]; csimpl; [done|].
  destruct (str_leb kv.1 kv'.1); [done|].
  rewrite IH. apply Permutation_swap.
Qed.

Lemma sorted_perm l : sorted l ≡ₚ l.
Proof.
  induction l as [|kv l IH]; csimpl; [done|].
  by rewrite insert_item_perm, IH.
Qed.

Lemma insert_item_sorted kv l : keys_sorted l → keys_sorted (insert_item kv l).
Proof.
  unfold keys_sorted, dict_keys.
  induction l as [|kv' l IH]; csimpl; intros Hs.
  - repeat constructor.
  - destruct (str_leb kv.1 kv'.1) eqn:E; csimpl.
    + constructor; [done|]. by constructor.
    + apply Sorted_inv in Hs as [Hs Hhd].
      constructor; [by apply IH|].
      destruct l as [|kv'' l]; csimpl.
      * constructor. by apply str_ltb_leb, str_leb_total.
      * destruct (str_leb kv.1 kv''.1); csimpl; constructor.
        -- by apply str_ltb_leb, str_leb_total.
        -- by apply HdRel_inv in Hhd.
Qed.

Lemma sorted_keys_sorted l : keys_sorted (sorted l).
Proof.
  induction l as [|kv l IH]; csimpl; [constructor|].
  by apply insert_item_sorted.
Qed.

Lemma sorted_fixed l : keys_sorted l → sorted l = l.
Proof.
  unfold keys_sorted, dict_keys.
  induction l as [|kv l IH]; csimpl; [done|]. intros Hs.
  apply Sorted_inv in Hs as [Hs Hhd]. rewrite (IH Hs).
  destruct l as [|kv' l]; csimpl; [done|].
  apply HdRel_inv in Hhd. by rewrite Hhd.
Qed.

Lemma sorted_idem l : sorted (sorted l) = sorted l.
Proof. apply sorted_fixed, sorted_keys_sorted. Qed.

Lemma dict_get_insert_item k kv l :
  dict_get k (insert_item kv l)
  = if str_eqb kv.1 k then Some kv.2 else dict_get k l.
Proof.
  destruct kv as [k0 v0]; csimpl.
  induction l as [|[k1 v1] l IH]; csimpl; [done|].
  destruct (str_leb k0 k1) eqn:E; csimpl; [done|].
  rewrite IH. destruct (str_eqb k0 k) eqn:E0; [|done].
  apply str_eqb_eq in E0 as ->.
  rewrite str_eqb_ne; [done|]. intros ->. by rewrite str_leb_refl in E.
Qed.

Lemma dict_get_sorted k l : dict_get k (sorted l) = dict_get k l.
Proof.
  induction l as [|[k0 v0] l IH]; csimpl; [done|].
  by rewrite dict_get_insert_item, IH.
Qed.

Lemma dict_contains_sorted k l : dict_contains k (sorted l) = dict_contains k l.
Proof. unfold dict_contains. by rewrite dict_get_sorted. Qed.

Lemma keys_sorted_strict d :
  keys_sorted d → distinct_keys d → keys_strictly_sorted d.
Proof.
  unfold keys_sorted, keys_strictly_sorted, distinct_keys.
  induction (dict_keys d) as [|k ks IH]; intros Hs Hnd; [constructor|].
  apply Sorted_inv in Hs as [Hs Hhd]. apply NoDup_cons in Hnd as [Hk Hnd].
  constructor; [by apply IH|].
  destruct ks as [|k' ks]; constructor.
  apply HdRel_inv in Hhd. apply str_leb_ne_ltb; [done|].
  intros ->. apply Hk. by left.
Qed.

Lemma sorted_distinct_keys l : distinct_keys l → distinct_keys (sorted l).
Proof.
  unfold distinct_keys, dict_keys. intros H.
  by rewrite (fmap_Permutation fst _ _ (sorted_perm l)).
Qed.

(** ** to_words *)

Section Words.

Context (X : externals) (Hset : set_order_ok X).

Lemma set_order_elem (s : gset pystr) x : x ∈ set_order X s ↔ x ∈ s.
Proof. by rewrite (Hset s), elem_of_elements. Qed.

Lemma set_order_NoDup (s : gset pystr) : NoDup (set_order X s).
Proof. rewrite (Hset s). apply NoDup_elements. Qed.

Lemma set_order_singleton x : set_order X {[ x ]} = [x].
Proof.
  apply Permutation_singleton_r. by rewrite (Hset {[ x ]}), elements_singleton.
Qed.

Lemma update_loop_elem (l : list pystr) (acc : gset pystr) x :
  x ∈ foldl
        (λ (segments : gset pystr) segment,
           if (1 <? length (compound_words X segment))%nat
           then segments ∪ list_to_set (compound_words X segment)
           else segments)
        acc l
  ↔ x ∈ acc
    ∨ ∃ segment, segment ∈ l
        ∧ (1 < length (compound_words X segment))%nat
        ∧ x ∈ compound_words X segment.
Proof.
  revert acc. induction l as [|t l IH]; intros acc; simpl.
  - split; [auto|]. intros [?|(? & ?%elem_of_nil & _)]; done.
  - rewrite IH. destruct (Nat.ltb_spec 1 (length (compound_words X t))) as [Hlt|Hge].
    + rewrite elem_of_union, elem_of_list_to_set. split.
      * intros [[?|?]|(t' & ? & ? & ?)]; [by left| |].
        -- right. exists t. split_and!; [by left|done..].
        -- right. exists t'. split_and!; [by right|done..].
      * intros [?|(t' & [->|?]%elem_of_cons & ? & ?)]; [by left; left| |].
        -- by left; right.
        -- right. by exists t'.
    + split.
      * intros [?|(t' & ? & ? & ?)]; [by left|].
        right. exists t'. split_and!; [by right|done..].
      * intros [?|(t' & [->|?]%elem_of_cons & ? & ?)]; [by left|lia|].
        right. by exists t'.
Qed.

Lemma to_words_elem epithet x :
  x ∈ to_words X epithet
  ↔ x ∈ split SPACE epithet
    ∨ ∃ segment, segment ∈ split SPACE epithet
        ∧ (1 < length (compound_words X segment))%nat
        ∧ x ∈ compound_words X segment.
Proof.
  unfold to_words. rewrite update_loop_elem, elem_of_list_to_set.
  by setoid_rewrite set_order_elem; setoid_rewrite elem_of_list_to_set.
Qed.

End Words.

(** ** The monad *)

Lemma bind_ok {A B} (c : M A) (k : A → M B) w a w' :
  c w = (Ok a, w') → bind c k w = k a w'.
Proof. unfold bind. by intros ->. Qed.

Lemma bind_raise {A B} (c : M A) (k : A → M B) w e w' :
  c w = (Raise e, w') → bind c k w = (Raise e, w').
Proof. unfold bind. by intros ->. Qed.

Lemma bind_inv_ok {A B} (c : M A) (k : A → M B) w b w' :
  bind c k w = (Ok b, w') → ∃ a w1, c w = (Ok a, w1) ∧ k a w1 = (Ok b, w').
Proof.
  unfold bind. destruct (c w) as [[a|e] w1]; [|done]. intros H. by exists a, w1.
Qed.

Lemma lift_inv_ok {A} (o : outcome A) w a w' :
  lift o w = (Ok a, w') → o = Ok a ∧ w' = w.
Proof. unfold lift. by intros [= -> ->]. Qed.

Lemma ret_inv {A} (a b : A) w w' : ret a w = (Ok b, w') → b = a ∧ w' = w.
Proof. unfold ret. by intros [= -> ->]. Qed.

Lemma for_each_app {A S} (l1 l2 : list A) (body : A → S → M S) s w :
  for_each (l1 ++ l2) body s w
  = (s' <- for_each l1 body s ;; for_each l2 body s') w.
Proof.
  revert s w. induction l1 as [|x l1 IH]; intros s w; simpl; [done|].
  unfold bind. destruct (body x s w) as [[s1|e] w1]; [|done].
  by rewrite IH.
Qed.

(** ** Kotus.search *)

Section Search.

Context (X : externals) (OVERWRITE_EXISTING : bool).

Lemma find_none_hakusana word (record : list article) :
  (∀ e, e ∈ record → hakusana e ≠ word) →
  List.find (λ e, str_eqb (hakusana e) word) record = None.
Proof.
  induction record as [|e record IH]; intros H; simpl; [done|].
  rewrite str_eqb_ne; [|apply H; by left].
  apply IH. intros e' He'. apply H. by right.
Qed.

Lemma now_emit ev w : now (emit ev w) = S (now w).
Proof. unfold now, emit; simpl. rewrite length_app; simpl. lia. Qed.

(** The service says the word exists, the detailed answer has no article
    under exactly that headword: [search] returns [None]. *)
Lemma search_missing_result word w suggestions record :
  qs_ajax_results X (now w) word = Some suggestions →
  existsb (λ e, str_eqb (value e) word) suggestions = true →
  qs_results X (S (now w)) word = Some record →
  (∀ e, e ∈ record → hakusana e ≠ word) →
  search X word w
  = (Ok None, emit (Get (QsResults word)) (emit (Get (QsAjaxResults word)) w)).
Proof.
  intros Hajax Hex Hres Hno.
  unfold search, word_exists, get_qs_ajax_results, get_qs_results, bind, ret.
  rewrite Hajax, Hex; simpl. rewrite now_emit, Hres.
  by rewrite find_none_hakusana.
Qed.

(** A word that is looked up is stored with what [search] returned. *)
Lemma search_word_looked_up word d w etymology w' :
  dict_contains word d = false ∨ OVERWRITE_EXISTING = true →
  search X word w = (Ok etymology, w') →
  search_word X OVERWRITE_EXISTING word (JObj d) w
  = (Ok (JObj (dict_set word (etymology_json etymology) d)), w').
Proof.
  intros Hlook Hsearch. unfold search_word, bind, lift; simpl.
  assert (dict_contains word d && negb OVERWRITE_EXISTING = false) as ->.
  { destruct Hlook as [-> | ->]; [done|]. by rewrite andb_false_r. }
  by rewrite Hsearch.
Qed.

(** The service says the word does not exist. *)
Lemma search_not_exists word w suggestions :
  qs_ajax_results X (now w) word = Some suggestions →
  existsb (λ e, str_eqb (value e) word) suggestions = false →
  search X word w = (Ok None, emit (Get (QsAjaxResults word)) w).
Proof.
  intros Hajax Hex.
  unfold search, word_exists, get_qs_ajax_results, bind, ret.
  by rewrite Hajax, Hex.
Qed.

(** The service says the word exists and has an article under it. *)
Lemma search_found word w suggestions record e :
  qs_ajax_results X (now w) word = Some suggestions →
  existsb (λ e, str_eqb (value e) word) suggestions = true →
  qs_results X (S (now w)) word = Some record →
  List.find (λ e, str_eqb (hakusana e) word) record = Some e →
  search X word w
  = (Ok (Some (mkEtymology (selite e) (etym_link (etym_id e)))),
     emit (Get (QsResults word)) (emit (Get (QsAjaxResults word)) w)).
Proof.
  intros Hajax Hex Hres Hfind.
  unfold search, word_exists, get_qs_ajax_results, get_qs_results, bind, ret.
  rewrite Hajax, Hex; simpl. by rewrite now_emit, Hres, Hfind.
Qed.

(** One turn of the loop over the words sets at most the key of its word. *)
Lemma search_word_obj word d w j w' :
  search_word X OVERWRITE_EXISTING word (JObj d) w = (Ok j, w') →
  ∃ v, j = JObj (dict_set word v d).
Proof.
  unfold search_word, bind, lift; simpl.
  destruct (dict_contains word d && negb OVERWRITE_EXISTING) eqn:E.
  - intros [= <- <-]. apply andb_true_iff in E as [E _].
    unfold dict_contains in E. destruct (dict_get word d) as [v|] eqn:Ev; [|done].
    exists v. by rewrite dict_set_same.
  - destruct (search X word w) as [[etymology|e] w1]; [|done].
    intros [= <- <-]. by eexists.
Qed.

(** A value that is not a dict is never turned into one. *)
Lemma search_word_not_obj word j w j' w' :
  search_word X OVERWRITE_EXISTING word j w = (Ok j', w') →
  (∀ d, j ≠ JObj d) → j' = j.
Proof.
  unfold search_word, bind, lift. intros H Hno.
  destruct j as [| | | |l|d]; simpl in H; try done.
  - destruct (_ && _); [by injection H as <- <-|].
    by destruct (search X word w) as [[?|?] ?].
  - destruct (_ && _); [by injection H as <- <-|].
    by destruct (search X word w) as [[?|?] ?].
  - by destruct (Hno d).
Qed.

Lemma words_loop_obj (l : list pystr) j w d' w' :
  for_each l (search_word X OVERWRITE_EXISTING) j w = (Ok (JObj d'), w') →
  ∃ d, j = JObj d
    ∧ (∀ k, k ∈ l → dict_contains k d' = true)
    ∧ (∀ k, dict_contains k d = true → dict_contains k d' = true)
    ∧ (∀ k, k ∉ l → dict_get k d' = dict_get k d)
    ∧ (distinct_keys d → distinct_keys d').
Proof.
  revert j w. induction l as [|word l IH]; intros j w; simpl.
  - intros [= -> <-]. exists d'. split_and!; try done. by intros k ?%elem_of_nil.
  - intros (j1 & w1 & Hstep & Hrest)%bind_inv_ok.
    destruct (IH _ _ Hrest) as (d1 & -> & Hall & Hmono & Hother & Hnd).
    destruct j as [| | | |?|d];
      try (apply search_word_not_obj in Hstep; [done|by intros]).
    apply search_word_obj in Hstep as [v [= ->]].
    exists d. split_and!; [done|..].
    + intros k [->|Hk]%elem_of_cons; [|by apply Hall].
      apply Hmono. by rewrite dict_contains_set, str_eqb_refl.
    + intros k Hk. apply Hmono. rewrite dict_contains_set, Hk.
      by destruct (str_eqb word k).
    + intros k Hk. rewrite Hother; [|by intros ?; apply Hk; right].
      apply dict_get_set_ne. intros ->. apply Hk. by left.
    + intros Hd. by apply Hnd, distinct_keys_set.
Qed.

(** What [search_etymologies] returns when it returns. *)
Lemma search_etymologies_inv epithet prior w found w' :
  search_etymologies X OVERWRITE_EXISTING epithet prior w = (Ok found, w') →
  ∃ s d d',
    epithet = JStr s ∧ prior = JObj d ∧ found = JObj (sorted d')
    ∧ for_each (set_order X (to_words X (clean_epithet X s)))
        (search_word X OVERWRITE_EXISTING) (JObj d) w = (Ok (JObj d'), w').
Proof.
  unfold search_etymologies. destruct epithet as [| | |s| |]; try done.
  intros (j & w1 & Hloop & Hrest)%bind_inv_ok.
  apply bind_inv_ok in Hrest as (items & w2 & Hitems & Hret).
  apply lift_inv_ok in Hitems as [Hitems ->].
  apply ret_inv in Hret as [-> ->].
  destruct j as [| | | | |d']; try done. injection Hitems as ->.
  destruct (words_loop_obj _ _ _ _ _ Hloop) as (d & -> & _).
  by exists s, d, items.
Qed.

End Search.

(** ** The example environment *)

Lemma fake_set_order_ok faults : set_order_ok (Fake.env faults).
Proof. intros s. reflexivity. Qed.

(** ** Claims about words and look-ups *)

(** C6. When the exists check answers true but the detailed answer has no
    candidate whose headword equals the queried word exactly, [search]
    returns the absent result without raising, the word is recorded with
    [None] (looking it up in the submap gives [None]), and the loop goes on
    with the remaining words. *)
Theorem missing_result_is_absent
    X OVERWRITE_EXISTING word d rest w suggestions record :
  qs_ajax_results X (now w) word = Some suggestions →
  existsb (λ e, str_eqb (value e) word) suggestions = true →
  qs_results X (S (now w)) word = Some record →
  (∀ e, e ∈ record → hakusana e ≠ word) →
  dict_contains word d = false ∨ OVERWRITE_EXISTING = true →
  let w' := emit (Get (QsResults word)) (emit (Get (QsAjaxResults word)) w) in
  search X word w = (Ok None, w')
  ∧ search_word X OVERWRITE_EXISTING word (JObj d) w
    = (Ok (JObj (dict_set word JNull d)), w')
  ∧ for_each (word :: rest) (search_word X OVERWRITE_EXISTING) (JObj d) w
    = for_each rest (search_word X OVERWRITE_EXISTING)
        (JObj (dict_set word JNull d)) w'
  ∧ dict_get word (dict_set word JNull d) = Some JNull.
Proof.
  intros Hajax Hex Hres Hno Hlook w'.
  pose proof (search_missing_result X word w _ _ Hajax Hex Hres Hno) as Hs.
  pose proof (search_word_looked_up X OVERWRITE_EXISTING word d w _ _ Hlook Hs)
    as Hw.
  split_and!; [done..| |apply dict_get_set_eq].
  simpl. by rewrite (bind_ok _ _ _ _ _ Hw).
Qed.

Lemma missing_result_is_absent_witness :
  let X := Fake.env Fake.no_faults in
  let w := Fake.world0 in
  let w' := emit (Get (QsResults (str "piika")))
              (emit (Get (QsAjaxResults (str "piika"))) w) in
  search X (str "piika") w = (Ok None, w')
  ∧ search_word X false (str "piika") (JObj []) w
    = (Ok (JObj (dict_set (str "piika") JNull [])), w')
  ∧ for_each [str "piika"; str "vanha"] (search_word X false) (JObj []) w
    = for_each [str "vanha"] (search_word X false)
        (JObj (dict_set (str "piika") JNull [])) w'
  ∧ dict_get (str "piika") (dict_set (str "piika") JNull []) = Some JNull.
Proof.
  apply (missing_result_is_absent (Fake.env Fake.no_faults) false (str "piika")
           [] [str "vanha"] Fake.world0
           [Suggestion (str "piika")]
           [Article (str "piikki") (str "thorn") 9]).
  - reflexivity.
  - reflexivity.
  - reflexivity.
  - intros e He. apply list_elem_of_singleton in He. subst e. discriminate.
  - left. reflexivity.
Defined.

(** C7. A word that is looked up in its turn and found to have no entry is
    a key of the submap [search_etymologies] returns, with the value
    [None]: the key is not left out. *)
Theorem absent_word_is_recorded
    X OVERWRITE_EXISTING epithet prior w found w' before word after d1 w1 w2 :
  set_order_ok X →
  search_etymologies X OVERWRITE_EXISTING (JStr epithet) prior w
  = (Ok found, w') →
  set_order X (to_words X (clean_epithet X epithet)) = before ++ word :: after →
  for_each before (search_word X OVERWRITE_EXISTING) prior w
  = (Ok (JObj d1), w1) →
  dict_contains word d1 = false ∨ OVERWRITE_EXISTING = true →
  search X word w1 = (Ok None, w2) →
  ∃ d, found = JObj d
    ∧ dict_get word d = Some JNull
    ∧ dict_contains word d = true.
Proof.
  intros Hset Hrun Horder Hbefore Hlook Hsearch.
  apply search_etymologies_inv in Hrun
    as (s & d & d' & [= <-] & -> & -> & Hloop).
  rewrite Horder, for_each_app, (bind_ok _ _ _ _ _ Hbefore) in Hloop.
  simpl in Hloop.
  rewrite (bind_ok _ _ _ _ _
             (search_word_looked_up X _ word d1 w1 _ w2 Hlook Hsearch)) in Hloop.
  apply words_loop_obj in Hloop as (d2 & [= <-] & _ & _ & Hother & _).
  assert (word ∉ after) as Hnotin.
  { pose proof (set_order_NoDup X Hset (to_words X (clean_epithet X epithet)))
      as Hnd.
    rewrite Horder in Hnd. apply NoDup_app in Hnd as (_ & _ & Hnd).
    by apply NoDup_cons in Hnd as [? _]. }
  assert (dict_get word (sorted d') = Some JNull) as Hget.
  { by rewrite dict_get_sorted, (Hother _ Hnotin), dict_get_set_eq. }
  exists (sorted d'). split_and!; [done..|].
  unfold dict_contains. by rewrite Hget.
Qed.

Lemma absent_word_is_recorded_witness :
  ∃ d,
    JObj [(str "akka", JNull);
          (str "vanha",
           JObj [(str "definition", JStr (str "old"));
                 (str "url", JStr (etym_link 5))])] = JObj d
    ∧ dict_get (str "akka") d = Some JNull
    ∧ dict_contains (str "akka") d = true.
Proof.
  apply (absent_word_is_recorded (Fake.env Fake.no_faults) false
           (str "Vanha akka!") (JObj []) Fake.world0 _
           (emit (Get (QsResults (str "vanha")))
              (emit (Get (QsAjaxResults (str "vanha")))
                 (emit (Get (QsAjaxResults (str "akka"))) Fake.world0)))
           [] (str "akka") [str "vanha"] [] Fake.world0
           (emit (Get (QsAjaxResults (str "akka"))) Fake.world0)).
  - apply fake_set_order_ok.
  - vm_compute. reflexivity.
  - vm_compute. reflexivity.
  - reflexivity.
  - left. reflexivity.
  - vm_compute. reflexivity.
Defined.

(** C8. The words of a cleaned epithet form a set (iterating over it meets
    no word twice) that holds every space-delimited token of the cleaned
    string; a token that splits into more than one compound part brings its
    parts in and stays itself; nothing else is in the set. *)
Theorem to_words_only_grows X epithet :
  set_order_ok X →
  let cleaned := clean_epithet X epithet in
  let words := to_words X cleaned in
  NoDup (set_order X words)
  ∧ (∀ token, token ∈ split SPACE cleaned → token ∈ words)
  ∧ (∀ token part,
       token ∈ split SPACE cleaned →
       (1 < length (compound_words X token))%nat →
       part ∈ compound_words X token →
       part ∈ words ∧ token ∈ words)
  ∧ (∀ word,
       word ∈ words →
       word ∈ split SPACE cleaned
       ∨ ∃ token, token ∈ split SPACE cleaned
           ∧ (1 < length (compound_words X token))%nat
           ∧ word ∈ compound_words X token).
Proof.
  intros Hset cleaned words. split_and!.
  - by apply set_order_NoDup.
  - intros token Htoken. apply to_words_elem; auto.
  - intros token part Htoken Hlen Hpart. split; apply to_words_elem; auto.
    right. by exists token.
  - intros word Hword. by apply to_words_elem in Hword.
Qed.

Lemma to_words_only_grows_witness :
  let X := Fake.env Fake.no_faults in
  let cleaned := clean_epithet X (str "Iso vanhapiika, iso!") in
  let words := to_words X cleaned in
  NoDup (set_order X words)
  ∧ (∀ token, token ∈ split SPACE cleaned → token ∈ words)
  ∧ (∀ token part,
       token ∈ split SPACE cleaned →
       (1 < length (compound_words X token))%nat →
       part ∈ compound_words X token →
       part ∈ words ∧ token ∈ words)
  ∧ (∀ word,
       word ∈ words →
       word ∈ split SPACE cleaned
       ∨ ∃ token, token ∈ split SPACE cleaned
           ∧ (1 < length (compound_words X token))%nat
           ∧ word ∈ compound_words X token).
Proof.
  apply (to_words_only_grows (Fake.env Fake.no_faults)
           (str "Iso vanhapiika, iso!")).
  apply fake_set_order_ok.
Defined.

Example to_words_compound :
  elements (to_words (Fake.env Fake.no_faults)
              (clean_epithet (Fake.env Fake.no_faults)
                 (str "Iso vanhapiika, iso!")))
  = [str "iso"; str "vanhapiika"; str "piika"; str "vanha"].
Proof. vm_compute. reflexivity. Qed.

Lemma keep_permitted_none s :
  Forall (λ c, permitted c = false) s → keep_permitted s = [].
Proof.
  unfold keep_permitted. induction 1 as [|c s Hc _ IH]; simpl; [done|].
  by rewrite Hc.
Qed.

(** The first thing [search] does is to ask whether the word exists. *)
Lemma search_first_event X word w :
  ∃ evs, trace (search X word w).2
         = trace w ++ Get (QsAjaxResults word) :: evs.
Proof.
  unfold search, word_exists, get_qs_ajax_results, get_qs_results, bind, ret.
  destruct (qs_ajax_results X (now w) word) as [suggestions|]; simpl;
    [|by exists []].
  destruct (existsb _ suggestions); simpl; [|by exists []].
  destruct (qs_results X _ word) as [record|]; simpl.
  - destruct (List.find _ record); simpl;
      exists [Get (QsResults word)]; by rewrite <- app_assoc.
  - exists [Get (QsResults word)]. by rewrite <- app_assoc.
Qed.

(** C10. An epithet whose lower-cased form has no permitted character
    cleans to the empty string; its set of words is the singleton of the
    empty string (a splitter breaks the empty string into empty parts
    only); and the empty string, when the submap does not have it, is
    looked up like any other word. *)
Theorem unpermitted_epithet_looks_up_empty_word
    X OVERWRITE_EXISTING epithet d w :
  set_order_ok X →
  Forall (λ c, permitted c = false) (str_lower X epithet) →
  (∀ part, part ∈ compound_words X [] → part = []) →
  clean_epithet X epithet = []
  ∧ to_words X (clean_epithet X epithet) = {[ [] ]}
  ∧ (dict_contains [] d = false →
     search_etymologies X OVERWRITE_EXISTING (JStr epithet) (JObj d) w
     = (etymology <- search X [] ;;
        ret (JObj (sorted (dict_set [] (etymology_json etymology) d)))) w
     ∧ ∃ evs,
         trace (search_etymologies X OVERWRITE_EXISTING
                  (JStr epithet) (JObj d) w).2
         = trace w ++ Get (QsAjaxResults []) :: evs).
Proof.
  intros Hset Hnone Hparts.
  assert (clean_epithet X epithet = []) as Hclean.
  { by apply keep_permitted_none. }
  assert (to_words X [] = {[ [] ]}) as Hwords.
  { unfold to_words. simpl.
    rewrite !(right_id_L (∅ : gset pystr) (∪)).
    rewrite (set_order_singleton X Hset). simpl.
    destruct (1 <? length (compound_words X []))%nat; [|done].
    apply set_eq. intros x.
    rewrite elem_of_union, elem_of_list_to_set, elem_of_singleton.
    split; [|auto]. intros [?|?%Hparts]; done. }
  rewrite Hclean. split_and!; [done..|]. intros Hnew.
  assert (search_etymologies X OVERWRITE_EXISTING (JStr epithet) (JObj d) w
          = (etymology <- search X [] ;;
             ret (JObj (sorted (dict_set [] (etymology_json etymology) d)))) w)
    as Heq.
  { unfold search_etymologies. rewrite Hclean, Hwords.
    rewrite (set_order_singleton X Hset). simpl.
    unfold search_word, bind, lift, ret; simpl. rewrite Hnew; simpl.
    by destruct (search X [] w) as [[etymology|e] w1]. }
  split; [done|]. rewrite Heq.
  destruct (search_first_event X [] w) as [evs Hevs].
  exists evs. unfold bind, ret.
  by destruct (search X [] w) as [[etymology|e] w1].
Qed.

Lemma unpermitted_epithet_looks_up_empty_word_witness :
  let X := Fake.env Fake.no_faults in
  let w := Fake.world0 in
  clean_epithet X (str "???") = []
  ∧ to_words X (clean_epithet X (str "???")) = {[ [] ]}
  ∧ (dict_contains [] [] = false →
     search_etymologies X false (JStr (str "???")) (JObj []) w
     = (etymology <- search X [] ;;
        ret (JObj (sorted (dict_set [] (etymology_json etymology) [])))) w
     ∧ ∃ evs,
         trace (search_etymologies X false (JStr (str "???")) (JObj []) w).2
         = trace w ++ Get (QsAjaxResults []) :: evs).
Proof.
  apply (unpermitted_epithet_looks_up_empty_word
           (Fake.env Fake.no_faults) false (str "???") [] Fake.world0).
  - apply fake_set_order_ok.
  - vm_compute. repeat constructor.
  - intros part Hpart. vm_compute in Hpart.
    apply list_elem_of_singleton in Hpart. exact Hpart.
Defined.

Example question_marks_persisted :
  (update_etymologies (Fake.env Fake.no_faults) false (JObj [])
     (JObj [(EPITHETS_KEY, JArr [JStr (str "???")])]) Fake.world0).1
  = Ok (JObj [(ETYMOLOGIES_KEY, JObj [(str "???", JObj [([], JNull)])])],
        JObj [(EPITHETS_KEY, JArr [JStr (str "???")])]).
Proof. vm_compute. reflexivity. Qed.

(** ** What a computation leaves behind *)

Section Preserves.

Context (R : relation world) `{!PreOrder R}.

Lemma preserves_ret {A} (a : A) : preserves R (ret a).
Proof. intros w. simpl. reflexivity. Qed.

Lemma preserves_raise {A} e : preserves R (raise (A:=A) e).
Proof. intros w. simpl. reflexivity. Qed.

Lemma preserves_lift {A} (o : outcome A) : preserves R (lift o).
Proof. intros w. simpl. reflexivity. Qed.

Lemma preserves_bind {A B} (c : M A) (k : A → M B) :
  preserves R c → (∀ a, preserves R (k a)) → preserves R (bind c k).
Proof.
  intros Hc Hk w. unfold bind. specialize (Hc w).
  destruct (c w) as [[a|e] w1]; simpl in *; [|done].
  etrans; [done|]. apply Hk.
Qed.

Lemma preserves_for_each {A S} (l : list A) (body : A → S → M S) s :
  (∀ x s, preserves R (body x s)) → preserves R (for_each l body s).
Proof.
  intros Hbody. revert s. induction l as [|x l IH]; intros s; simpl.
  - apply preserves_ret.
  - apply preserves_bind; [apply Hbody|apply IH].
Qed.

End Preserves.

#[global] Instance extends_preorder P : PreOrder (extends P).
Proof.
  split.
  - intros w. split; [done|]. exists []. by rewrite app_nil_r.
  - intros w1 w2 w3 (He1 & evs1 & Ht1 & HP1) (He2 & evs2 & Ht2 & HP2).
    split; [congruence|]. exists (evs1 ++ evs2).
    rewrite Ht2, Ht1, app_assoc. split; [done|]. by apply Forall_app.
Qed.

#[global] Instance reads_only_preorder : PreOrder reads_only.
Proof.
  split.
  - intros w. split; reflexivity.
  - intros w1 w2 w3 [H1 F1] [H2 F2]. split; [by etrans|congruence].
Qed.

Lemma extends_mono (P Q : event → Prop) w w' :
  (∀ ev, P ev → Q ev) → extends P w w' → extends Q w w'.
Proof.
  intros HPQ (He & evs & Ht & HP). split; [done|]. exists evs.
  split; [done|]. by eapply Forall_impl.
Qed.

Lemma extends_emit (P : event → Prop) ev w : P ev → extends P w (emit ev w).
Proof. intros HP. split; [done|]. exists [ev]. split; [done|]. by constructor. Qed.

Lemma reads_only_emit r w : reads_only w (emit (Get r) w).
Proof. split; [by apply extends_emit|done]. Qed.

Section Pipeline.

Context (X : externals) (OVERWRITE_EXISTING : bool).

Lemma get_qs_ajax_results_reads_only word :
  preserves reads_only (get_qs_ajax_results X word).
Proof.
  intros w. unfold get_qs_ajax_results.
  destruct (qs_ajax_results X (now w) word); apply reads_only_emit.
Qed.

Lemma get_qs_results_reads_only word :
  preserves reads_only (get_qs_results X word).
Proof.
  intros w. unfold get_qs_results.
  destruct (qs_results X (now w) word); apply reads_only_emit.
Qed.

Lemma search_reads_only word : preserves reads_only (search X word).
Proof.
  unfold search, word_exists.
  apply preserves_bind; [apply _| |].
  - apply preserves_bind; [apply _|apply get_qs_ajax_results_reads_only|].
    intros record. apply preserves_ret, _.
  - intros found. destruct (negb found); [apply preserves_ret, _|].
    apply preserves_bind; [apply _|apply get_qs_results_reads_only|].
    intros record. destruct (List.find _ record); apply preserves_ret, _.
Qed.

Lemma search_word_reads_only word j :
  preserves reads_only (search_word X OVERWRITE_EXISTING word j).
Proof.
  unfold search_word.
  apply preserves_bind; [apply _|apply preserves_lift, _|].
  intros present. destruct (_ && _); [apply preserves_ret, _|].
  apply preserves_bind; [apply _|apply search_reads_only|].
  intros etymology. apply preserves_lift, _.
Qed.

Lemma search_etymologies_reads_only epithet prior :
  preserves reads_only (search_etymologies X OVERWRITE_EXISTING epithet prior).
Proof.
  unfold search_etymologies.
  destruct epithet; try apply preserves_raise, _.
  apply preserves_bind; [apply _| |].
  - apply preserves_for_each; [apply _|]. apply search_word_reads_only.
  - intros j. apply preserves_bind; [apply _|apply preserves_lift, _|].
    intros items. apply preserves_ret, _.
Qed.

Lemma resolve_epithet_reads_only epithet etymologies :
  preserves reads_only (resolve_epithet X OVERWRITE_EXISTING epithet etymologies).
Proof.
  unfold resolve_epithet.
  apply preserves_bind; [apply _|apply preserves_lift, _|].
  intros prior.
  apply preserves_bind; [apply _|apply search_etymologies_reads_only|].
  intros found. apply preserves_lift, _.
Qed.

(** What [resolve_epithet] returns when it returns. *)
Lemma resolve_epithet_inv epithet etymologies w etymologies' w' :
  resolve_epithet X OVERWRITE_EXISTING epithet etymologies w
  = (Ok etymologies', w') →
  ∃ s d prior d',
    epithet = JStr s ∧ etymologies = JObj d
    ∧ py_get etymologies epithet = Ok (JObj prior)
    ∧ etymologies' = JObj (dict_set s (JObj (sorted d')) d)
    ∧ for_each (set_order X (to_words X (clean_epithet X s)))
        (search_word X OVERWRITE_EXISTING) (JObj prior) w = (Ok (JObj d'), w').
Proof.
  unfold resolve_epithet.
  intros (prior & w1 & [Hget ->]%lift_inv_ok & Hrest)%bind_inv_ok.
  apply bind_inv_ok in Hrest as (found & w2 & Hsearch & [Hstore ->]%lift_inv_ok).
  apply search_etymologies_inv in Hsearch
    as (s & p & d' & -> & -> & -> & Hloop).
  destruct etymologies as [| | | | |d]; try done.
  injection Hstore as <-. by exists s, d, p, d'.
Qed.

Lemma persist_inv_ok doc w u w' :
  persist X doc w = (Ok u, w') →
  io_fault X (now w) = NoFault
  ∧ w' = World (epithets_json w) (Some (json_dumps X doc))
           (trace w ++ [Write doc]).
Proof.
  unfold persist. destruct (io_fault X (now w)); [|done..].
  by intros [= _ <-].
Qed.

Lemma persist_extends (P : event → Prop) doc :
  P (Write doc) → P (WriteFailed doc) → preserves (extends P) (persist X doc).
Proof.
  intros HW HF w. unfold persist.
  destruct (io_fault X (now w)); simpl;
    (split; [done|]; eexists [_]; split; [done|]; by constructor).
Qed.

(** What [update_epithet] returns when it returns. *)
Lemma update_epithet_inv root epithet etymologies w etymologies' w' :
  update_epithet X OVERWRITE_EXISTING root epithet etymologies w
  = (Ok etymologies', w') →
  ∃ w1,
    resolve_epithet X OVERWRITE_EXISTING epithet etymologies w
    = (Ok etymologies', w1)
    ∧ io_fault X (now w1) = NoFault
    ∧ w' = World (epithets_json w1)
             (Some (json_dumps X (root_with root etymologies')))
             (trace w1 ++ [Write (root_with root etymologies')]).
Proof.
  unfold update_epithet.
  intros (e1 & w1 & Hres & Hrest)%bind_inv_ok.
  apply bind_inv_ok in Hrest as (u & w2 & Hp & [-> ->]%ret_inv).
  apply persist_inv_ok in Hp as [Hf ->]. by exists w1.
Qed.

End Pipeline.

(** ** Claims about the store and its persistence *)

(** C3. Whatever the epithet and the store, when the turn of an epithet is
    over the submap stored for it has its keys in sorted order, strictly
    so when the submap it started from had no key twice (as a submap read
    from a file has), and this is the store that was just written to the
    file, under the key "etymologies" of the document. *)
Theorem stored_submap_is_sorted
    X OVERWRITE_EXISTING root epithet etymologies w etymologies' w' :
  update_epithet X OVERWRITE_EXISTING root epithet etymologies w
  = (Ok etymologies', w') →
  ∃ s d sub,
    epithet = JStr s ∧ etymologies' = JObj d
    ∧ dict_get s d = Some (JObj sub)
    ∧ keys_sorted sub
    ∧ ((∀ prior, py_get etymologies epithet = Ok (JObj prior) →
                 distinct_keys prior) →
       keys_strictly_sorted sub)
    ∧ etymologies_json w'
      = Some (json_dumps X (root_with root etymologies'))
    ∧ last (trace w') = Some (Write (root_with root etymologies'))
    ∧ py_getitem (root_with root etymologies') ETYMOLOGIES_KEY
      = Ok etymologies'.
Proof.
  intros (w1 & Hres & _ & ->)%update_epithet_inv.
  apply resolve_epithet_inv in Hres
    as (s & d & prior & d' & -> & -> & Hget & -> & Hloop).
  exists s, (dict_set s (JObj (sorted d')) d), (sorted d').
  split_and!; try done.
  - apply dict_get_set_eq.
  - apply sorted_keys_sorted.
  - intros Hprior. apply keys_sorted_strict; [apply sorted_keys_sorted|].
    apply sorted_distinct_keys.
    apply words_loop_obj in Hloop as (p & [= <-] & _ & _ & _ & Hnd).
    by apply Hnd, Hprior.
  - simpl. by rewrite last_snoc.
  - unfold root_with, py_getitem. by rewrite dict_get_set_eq.
Qed.

Lemma stored_submap_is_sorted_witness :
  ∃ s d sub,
    JStr (str "Vanha akka!") = JStr s
    ∧ JObj [(str "Vanha akka!",
             JObj [(str "akka", JNull);
                   (str "vanha",
                    JObj [(str "definition", JStr (str "old"));
                          (str "url", JStr (etym_link 5))])])] = JObj d
    ∧ dict_get s d = Some (JObj sub)
    ∧ keys_sorted sub
    ∧ ((∀ prior,
          py_get (JObj [(str "Vanha akka!", JObj [(str "vanha", JNull)])])
            (JStr (str "Vanha akka!")) = Ok (JObj prior) →
          distinct_keys prior) →
       keys_strictly_sorted sub)
    ∧ etymologies_json
        (update_epithet (Fake.env Fake.no_faults) true [] (JStr (str "Vanha akka!"))
           (JObj [(str "Vanha akka!", JObj [(str "vanha", JNull)])])
           Fake.world0).2
      = Some (json_dumps (Fake.env Fake.no_faults)
                (root_with []
                   (JObj [(str "Vanha akka!",
                           JObj [(str "akka", JNull);
                                 (str "vanha",
                                  JObj [(str "definition", JStr (str "old"));
                                        (str "url", JStr (etym_link 5))])])])))
    ∧ last (trace
              (update_epithet (Fake.env Fake.no_faults) true []
                 (JStr (str "Vanha akka!"))
                 (JObj [(str "Vanha akka!", JObj [(str "vanha", JNull)])])
                 Fake.world0).2)
      = Some (Write
                (root_with []
                   (JObj [(str "Vanha akka!",
                           JObj [(str "akka", JNull);
                                 (str "vanha",
                                  JObj [(str "definition", JStr (str "old"));
                                        (str "url", JStr (etym_link 5))])])])))
    ∧ py_getitem
        (root_with []
           (JObj [(str "Vanha akka!",
                   JObj [(str "akka", JNull);
                         (str "vanha",
                          JObj [(str "definition", JStr (str "old"));
                                (str "url", JStr (etym_link 5))])])]))
        ETYMOLOGIES_KEY
      = Ok (JObj [(str "Vanha akka!",
                   JObj [(str "akka", JNull);
                         (str "vanha",
                          JObj [(str "definition", JStr (str "old"));
                                (str "url", JStr (etym_link 5))])])]).
Proof.
  apply (stored_submap_is_sorted (Fake.env Fake.no_faults) true []
           (JStr (str "Vanha akka!"))
           (JObj [(str "Vanha akka!", JObj [(str "vanha", JNull)])])
           Fake.world0).
  vm_compute. reflexivity.
Defined.



(** The same write, as the run does it. *)
Example failed_write_in_a_run :
  let run := update_etymologies (Fake.env (Fake.disk_full 3)) false
               Fake.stored_doc Fake.epithets_doc Fake.world1 in
  run.1 = Raise OSError
  ∧ trace run.2
    = trace Fake2.world_before_write ++ [WriteFailed Fake2.written_doc]
  ∧ etymologies_json run.2 = Some (str "{" ++ [Fake.QUOTE] ++ str "v")
  ∧ etymologies_json run.2 ≠ etymologies_json Fake.world1
  ∧ etymologies_json run.2
    ≠ Some (Fake.dumps Fake2.written_doc).
Proof. vm_compute. split_and!; try reflexivity; discriminate. Qed.

Example failed_write_prefix_is_proper :
  (length (Fake.dumps Fake2.written_doc) > 3)%nat
  ∧ take 3 (Fake.dumps Fake2.written_doc)
    = str "{" ++ [Fake.QUOTE] ++ str "v".
Proof. vm_compute. split; [lia|reflexivity]. Qed.

Lemma dict_set_app_last k v v' d :
  dict_get k d = None → dict_set k v (d ++ [(k, v')]) = dict_set k v d.
Proof.
  intros Hnone. rewrite (dict_set_absent k v d Hnone).
  induction d as [|[k0 v0] d IH]; simpl in *.
  - by rewrite str_eqb_refl.
  - destruct (str_eqb k0 k); [done|]. by rewrite IH.
Qed.

Lemma same_but_etymologies_set d etymologies :
  same_but_etymologies (JObj d) (JObj (dict_set ETYMOLOGIES_KEY etymologies d)).
Proof.
  exists d, (dict_set ETYMOLOGIES_KEY etymologies d). split_and!; try done.
  - intros k Hk. by apply dict_get_set_ne.
  - apply dict_keys_set.
Qed.

(** What [setdefault] leaves under the other keys. *)
Lemma setdefault_etymologies_inv root etymologies d0 :
  setdefault_etymologies root = Ok (etymologies, d0) →
  ∃ d, root = JObj d
    ∧ dict_get ETYMOLOGIES_KEY d0 = Some etymologies
    ∧ ∀ v, dict_set ETYMOLOGIES_KEY v d0 = dict_set ETYMOLOGIES_KEY v d.
Proof.
  unfold setdefault_etymologies. destruct root as [| | | | |d]; try done.
  destruct (dict_get ETYMOLOGIES_KEY d) as [e|] eqn:E.
  - intros [= -> ->]. by exists d0.
  - intros [= <- <-]. exists d. split_and!; [done| |].
    + rewrite <- (dict_set_absent _ _ _ E). apply dict_get_set_eq.
    + intros v. by apply dict_set_app_last.
Qed.

(** What [update_etymologies] returns when it returns. *)
Lemma update_etymologies_inv X OVERWRITE_EXISTING root epithets_root w r w' :
  update_etymologies X OVERWRITE_EXISTING root epithets_root w = (Ok r, w') →
  ∃ etymologies d0 values epithets etymologies',
    setdefault_etymologies root = Ok (etymologies, d0)
    ∧ py_getitem epithets_root EPITHETS_KEY = Ok values
    ∧ py_iter values = Ok epithets
    ∧ for_each epithets (update_epithet X OVERWRITE_EXISTING d0) etymologies w
      = (Ok etymologies', w')
    ∧ r = (root_with d0 etymologies', epithets_root).
Proof.
  unfold update_etymologies.
  intros ([etymologies d0] & w0 & [Hset ->]%lift_inv_ok & Hrest)%bind_inv_ok.
  apply bind_inv_ok in Hrest as (values & w1 & [Hget ->]%lift_inv_ok & Hrest).
  apply bind_inv_ok in Hrest as (epithets & w2 & [Hiter ->]%lift_inv_ok & Hrest).
  apply bind_inv_ok in Hrest as (etymologies' & w3 & Hloop & [-> ->]%ret_inv).
  by exists etymologies, d0, values, epithets, etymologies'.
Qed.

Lemma update_epithet_extends
    X OVERWRITE_EXISTING (P : event → Prop) d0 epithet etymologies :
  (∀ r, P (Get r)) →
  (∀ v, P (Write (root_with d0 v)) ∧ P (WriteFailed (root_with d0 v))) →
  preserves (extends P)
    (update_epithet X OVERWRITE_EXISTING d0 epithet etymologies).
Proof.
  intros HG HW. unfold update_epithet.
  apply preserves_bind; [apply _| |].
  - intros w. eapply extends_mono; [|apply resolve_epithet_reads_only].
    intros [r| |]; simpl; done.
  - intros v. apply preserves_bind; [apply _| |].
    + apply persist_extends; apply HW.
    + intros _. apply preserves_ret, _.
Qed.

(** C9. Whatever its outcome, a run of [update_etymologies] writes only
    documents that agree with the loaded one under every top-level key but
    "etymologies", in the same order of keys; so does the document it
    returns; the epithets document and the epithets file are as they
    were. *)
Theorem only_etymologies_key_is_written
    X OVERWRITE_EXISTING root epithets_root w r w' :
  update_etymologies X OVERWRITE_EXISTING root epithets_root w = (r, w') →
  epithets_json w' = epithets_json w
  ∧ (∃ evs, trace w' = trace w ++ evs
       ∧ ∀ doc, Write doc ∈ evs ∨ WriteFailed doc ∈ evs →
                same_but_etymologies root doc)
  ∧ (∀ root' epithets_root',
       r = Ok (root', epithets_root') →
       epithets_root' = epithets_root ∧ same_but_etymologies root root').
Proof.
  intros Hrun.
  set (P := λ ev, match ev with
                  | Get _ => True
                  | Write doc | WriteFailed doc => same_but_etymologies root doc
                  end).
  assert (extends P w w') as (Hfile & evs & Htrace & Hevs).
  { replace w' with
      (update_etymologies X OVERWRITE_EXISTING root epithets_root w).2
      by by rewrite Hrun.
    unfold update_etymologies, bind at 1, lift at 1.
    destruct (setdefault_etymologies root) as [[etymologies d0]|e] eqn:Hset;
      [|reflexivity].
    apply setdefault_etymologies_inv in Hset as (d & -> & _ & Hd0).
    apply preserves_bind; [apply _|apply preserves_lift, _|]. intros values.
    apply preserves_bind; [apply _|apply preserves_lift, _|]. intros epithets.
    apply preserves_bind; [apply _| |intros ?; apply preserves_ret, _].
    apply preserves_for_each; [apply _|]. intros epithet etymologies1.
    apply update_epithet_extends; [done|].
    intros v. unfold root_with. rewrite Hd0.
    split; apply same_but_etymologies_set. }
  split_and!; [done| |].
  - exists evs. split; [done|]. rewrite Forall_forall in Hevs.
    intros doc [Hdoc|Hdoc]; apply (Hevs _ Hdoc).
  - intros root' epithets_root' ->.
    apply update_etymologies_inv in Hrun
      as (etymologies & d0 & values & epithets & etymologies'
          & Hset & _ & _ & _ & [= -> ->]).
    split; [done|].
    apply setdefault_etymologies_inv in Hset as (d & -> & _ & Hd0).
    unfold root_with. rewrite Hd0. apply same_but_etymologies_set.
Qed.

Lemma only_etymologies_key_is_written_witness :
  epithets_json Fake.stored_run.2 = epithets_json Fake.world1
  ∧ (∃ evs, trace Fake.stored_run.2 = trace Fake.world1 ++ evs
       ∧ ∀ doc, Write doc ∈ evs ∨ WriteFailed doc ∈ evs →
                same_but_etymologies Fake.stored_doc doc)
  ∧ (∀ root' epithets_root',
       Fake.stored_run.1 = Ok (root', epithets_root') →
       epithets_root' = Fake.epithets_doc
       ∧ same_but_etymologies Fake.stored_doc root').
Proof.
  apply (only_etymologies_key_is_written (Fake.env Fake.no_faults) false
           Fake.stored_doc Fake.epithets_doc Fake.world1).
  vm_compute. reflexivity.
Defined.

Example version_key_is_kept :
  (update_etymologies (Fake.env Fake.no_faults) false
     Fake.stored_doc
     (JObj [(EPITHETS_KEY, JArr [JStr (str "akka")])]) Fake.world1).1
  = Ok (JObj [(str "version", JNum (PyInt 1));
              (ETYMOLOGIES_KEY, JObj [(str "akka", JObj [(str "akka", JNull)])])],
        JObj [(EPITHETS_KEY, JArr [JStr (str "akka")])]).
Proof. vm_compute. reflexivity. Qed.

(** ** Resumability *)

Section Resume.

Context (X : externals).

Lemma update_epithet_resolved ow root epithet etymologies w etymologies' w' :
  update_epithet X ow root epithet etymologies w = (Ok etymologies', w') →
  resolved X epithet etymologies'
  ∧ ∀ other, resolved X other etymologies → resolved X other etymologies'.
Proof.
  intros (w1 & Hres & _ & _)%update_epithet_inv.
  apply resolve_epithet_inv in Hres
    as (s & d & prior & d' & -> & -> & Hget & -> & Hloop).
  apply words_loop_obj in Hloop as (p & [= <-] & Hall & _).
  assert (resolved X (JStr s) (JObj (dict_set s (JObj (sorted d')) d))) as Hnew.
  { exists s, (dict_set s (JObj (sorted d')) d), (sorted d').
    split_and!; try done.
    - apply dict_get_set_eq.
    - apply sorted_keys_sorted.
    - intros word Hword. rewrite dict_contains_sorted. by apply Hall. }
  split; [done|].
  intros other (s' & d0 & sub & -> & [= <-] & Hsub & Hsorted & Hwords).
  destruct (decide (s = s')) as [<-|Hne]; [done|].
  exists s', (dict_set s (JObj (sorted d')) d), sub.
  split_and!; try done. by rewrite dict_get_set_ne.
Qed.

Lemma update_loop_resolved ow root epithets etymologies w etymologies' w' :
  for_each epithets (update_epithet X ow root) etymologies w
  = (Ok etymologies', w') →
  (∀ epithet, epithet ∈ epithets → resolved X epithet etymologies')
  ∧ ∀ other, resolved X other etymologies → resolved X other etymologies'.
Proof.
  revert etymologies w.
  induction epithets as [|e epithets IH]; intros etymologies w; simpl.
  - intros [= -> ->]. split; [|done]. by intros ? ?%elem_of_nil.
  - intros (e1 & w1 & Hstep & Hrest)%bind_inv_ok.
    apply update_epithet_resolved in Hstep as [Hnew Hkeep].
    apply IH in Hrest as [Hall Hmono]. split.
    + intros epithet [->|?]%elem_of_cons; [by apply Hmono|by apply Hall].
    + intros other Hother. by apply Hmono, Hkeep.
Qed.

Lemma update_loop_file ow root epithets etymologies w etymologies' w' :
  epithets ≠ [] →
  for_each epithets (update_epithet X ow root) etymologies w
  = (Ok etymologies', w') →
  etymologies_json w' = Some (json_dumps X (root_with root etymologies')).
Proof.
  revert etymologies w.
  induction epithets as [|e epithets IH]; intros etymologies w; [done|].
  intros _. simpl. intros (e1 & w1 & Hstep & Hrest)%bind_inv_ok.
  destruct epithets as [|e' epithets].
  - simpl in Hrest. injection Hrest as <- <-.
    by apply update_epithet_inv in Hstep as (w0 & _ & _ & ->).
  - by apply IH in Hrest.
Qed.

End Resume.

(** C4, as the code has it. The file is rewritten at the end of the turn
    of every epithet: once the loop has completed some epithets, the file
    holds the document that has, under "etymologies", the store with the
    submaps of all of them, each with every word of its epithet. When the next epithet raises while its words are
    resolved, the run ends with that exception and the file still holds
    this document. *)
Theorem checkpoint_after_each_epithet
    X OVERWRITE_EXISTING root completed etymologies w etymologies1 w1 :
  completed ≠ [] →
  for_each completed (update_epithet X OVERWRITE_EXISTING root) etymologies w
  = (Ok etymologies1, w1) →
  etymologies_json w1 = Some (json_dumps X (root_with root etymologies1))
  ∧ (∀ epithet, epithet ∈ completed → resolved X epithet etymologies1)
  ∧ (∀ next rest e w2,
       resolve_epithet X OVERWRITE_EXISTING next etymologies1 w1
       = (Raise e, w2) →
       for_each (completed ++ next :: rest)
         (update_epithet X OVERWRITE_EXISTING root) etymologies w
       = (Raise e, w2)
       ∧ etymologies_json w2
         = Some (json_dumps X (root_with root etymologies1)))
  ∧ py_getitem (root_with root etymologies1) ETYMOLOGIES_KEY
    = Ok etymologies1.
Proof.
  intros Hne Hloop.
  pose proof (update_loop_file X _ _ _ _ _ _ _ Hne Hloop) as Hfile.
  split_and!; [done|by apply (update_loop_resolved X _ _ _ _ _ _ _ Hloop)|
               |unfold root_with, py_getitem; by rewrite dict_get_set_eq].
  intros next rest e w2 Hraise. split.
  - rewrite for_each_app, (bind_ok _ _ _ _ _ Hloop). simpl.
    unfold update_epithet at 1.
    by rewrite (bind_raise _ _ _ _ _ (bind_raise _ _ _ _ _ Hraise)).
  - pose proof (resolve_epithet_reads_only X OVERWRITE_EXISTING
                  next etymologies1 w1) as [_ Hsame].
    rewrite Hraise in Hsame. simpl in Hsame. by rewrite Hsame.
Qed.

Lemma checkpoint_after_each_epithet_witness :
  let X := Fake.env Fake.no_faults in
  etymologies_json Fake.world_after_first
  = Some (json_dumps X (root_with Fake.root0 Fake.etymologies1))
  ∧ (∀ epithet, epithet ∈ [JStr (str "Vanha akka!")] →
                resolved X epithet Fake.etymologies1)
  ∧ (∀ next rest e w2,
       resolve_epithet X false next Fake.etymologies1 Fake.world_after_first
       = (Raise e, w2) →
       for_each ([JStr (str "Vanha akka!")] ++ next :: rest)
         (update_epithet X false Fake.root0) (JObj []) Fake.world0
       = (Raise e, w2)
       ∧ etymologies_json w2
         = Some (json_dumps X (root_with Fake.root0 Fake.etymologies1)))
  ∧ py_getitem (root_with Fake.root0 Fake.etymologies1) ETYMOLOGIES_KEY
    = Ok Fake.etymologies1.
Proof.
  apply (checkpoint_after_each_epithet (Fake.env Fake.no_faults) false
           Fake.root0 [JStr (str "Vanha akka!")] (JObj []) Fake.world0
           Fake.etymologies1 Fake.world_after_first).
  - discriminate.
  - vm_compute. reflexivity.
Defined.

(** A request that times out while the second epithet is resolved: the
    run raises and the file holds the first epithet. *)
Example timeout_keeps_checkpoint :
  let run := update_etymologies (Fake.env Fake.no_faults) false (JObj [])
               (JObj [(EPITHETS_KEY,
                       JArr [JStr (str "Vanha akka!"); JStr (str "piika virhe")])])
               Fake.world0 in
  run.1 = Raise RequestException
  ∧ etymologies_json run.2
    = Some (Fake.dumps (root_with Fake.root0 Fake.etymologies1)).
Proof. vm_compute. split; reflexivity. Qed.

(** C4, as stated, fails: when the write at the end of the second epithet
    raises, the file it had truncated no longer holds the first epithet. *)
Lemma failed_write_loses_checkpoint :
  ¬ survives_interruption (Fake.env (Fake.fails_at 9)) false Fake.root0
      [JStr (str "Vanha akka!")] (JStr (str "vanhapiika")) (JObj [])
      Fake.world0.
Proof.
  intros H.
  specialize (H Fake.etymologies1 Fake.world_after_first OSError
                (update_epithet (Fake.env (Fake.fails_at 9)) false Fake.root0
                   (JStr (str "vanhapiika")) Fake.etymologies1
                   Fake.world_after_first).2).
  assert (etymologies_json
            (update_epithet (Fake.env (Fake.fails_at 9)) false Fake.root0
               (JStr (str "vanhapiika")) Fake.etymologies1
               Fake.world_after_first).2 = Some []) as Hempty.
  { vm_compute. reflexivity. }
  rewrite Hempty in H.
  assert (Some [] = Some (json_dumps (Fake.env (Fake.fails_at 9))
                            (root_with Fake.root0 Fake.etymologies1))) as Habs.
  { apply H.
    - discriminate.
    - vm_compute. reflexivity.
    - vm_compute. reflexivity. }
  vm_compute in Habs. discriminate.
Qed.

Example failed_write_empties_file :
  let run := update_etymologies (Fake.env (Fake.fails_at 9)) false (JObj [])
               Fake.epithets_doc Fake.world0 in
  run.1 = Raise OSError ∧ etymologies_json run.2 = Some [].
Proof. vm_compute. split; reflexivity. Qed.

(** ** Running again *)

Section Again.

Context (X : externals).

Lemma words_loop_skips (l : list pystr) sub w :
  (∀ word, word ∈ l → dict_contains word sub = true) →
  for_each l (search_word X false) (JObj sub) w = (Ok (JObj sub), w).
Proof.
  induction l as [|word l IH]; intros Hall; simpl; [done|].
  unfold bind, search_word at 1, lift; simpl.
  rewrite (Hall word) by by left. simpl.
  apply IH. intros word' Hword'. apply Hall. by right.
Qed.

(** With the policy off, the turn of a resolved epithet asks nothing and
    changes nothing. *)
Lemma resolve_epithet_resolved epithet etymologies w :
  resolved X epithet etymologies →
  resolve_epithet X false epithet etymologies w = (Ok etymologies, w).
Proof.
  intros (s & d & sub & -> & -> & Hsub & Hsorted & Hwords).
  unfold resolve_epithet, bind at 1, lift at 1; simpl. rewrite Hsub.
  unfold bind at 1. unfold search_etymologies, bind at 1.
  rewrite (words_loop_skips _ _ _ Hwords).
  unfold bind, lift, ret; simpl.
  by rewrite (sorted_fixed _ Hsorted), (dict_set_same _ _ _ Hsub).
Qed.

Lemma update_epithet_again root epithet etymologies w :
  resolved X epithet etymologies →
  update_epithet X false root epithet etymologies w
  = (_ <- persist X (root_with root etymologies) ;; ret etymologies) w.
Proof.
  intros Hres. unfold update_epithet.
  by rewrite (bind_ok _ _ _ _ _ (resolve_epithet_resolved _ _ w Hres)).
Qed.

Lemma update_loop_again_writes root epithets etymologies w :
  (∀ epithet, epithet ∈ epithets → resolved X epithet etymologies) →
  extends is_write w
    (for_each epithets (update_epithet X false root) etymologies w).2.
Proof.
  revert w. induction epithets as [|e epithets IH]; intros w Hall; simpl.
  - reflexivity.
  - unfold bind at 1. rewrite update_epithet_again by (apply Hall; by left).
    pose proof (persist_extends X is_write (root_with root etymologies)
                  I I w) as Hp.
    unfold bind at 1.
    destruct (persist X (root_with root etymologies) w) as [[u|x] w1];
      simpl in *; [|done].
    etrans; [done|]. apply IH. intros e' He'. apply Hall. by right.
Qed.

Lemma update_loop_again_ok root epithets etymologies w :
  (∀ epithet, epithet ∈ epithets → resolved X epithet etymologies) →
  (∀ n, now w ≤ n → io_fault X n = NoFault) →
  for_each epithets (update_epithet X false root) etymologies w
  = (Ok etymologies,
     World (epithets_json w)
       (if epithets is [] then etymologies_json w
        else Some (json_dumps X (root_with root etymologies)))
       (trace w ++ replicate (length epithets)
                     (Write (root_with root etymologies)))).
Proof.
  revert w. induction epithets as [|e epithets IH]; intros w Hall Hio; simpl.
  - rewrite app_nil_r. by destruct w.
  - unfold bind at 1. rewrite update_epithet_again by (apply Hall; by left).
    unfold bind, persist, ret. rewrite (Hio (now w)) by done.
    rewrite IH; simpl.
    + rewrite <- app_assoc. simpl. by destruct epithets.
    + intros e' He'. apply Hall. by right.
    + intros n Hn. apply Hio. unfold now in *; simpl in *.
      rewrite length_app in Hn. simpl in Hn. lia.
Qed.

End Again.

(** C2. After a run that completed, a second run with the overwrite policy
    off, on the same input and on the document the first run produced,
    sends no request, whatever becomes of its writes; and when its writes
    go through it returns the very same document and leaves the very same
    content in the file, every write being the document of the first
    run. *)
Theorem second_run_changes_nothing
    X OVERWRITE_EXISTING root epithets_root w root1 epithets_root1 w1 :
  update_etymologies X OVERWRITE_EXISTING root epithets_root w
  = (Ok (root1, epithets_root1), w1) →
  extends is_write w1 (update_etymologies X false root1 epithets_root w1).2
  ∧ ((∀ n, now w1 ≤ n → io_fault X n = NoFault) →
     ∃ w2 k,
       update_etymologies X false root1 epithets_root w1
       = (Ok (root1, epithets_root), w2)
       ∧ etymologies_json w2 = etymologies_json w1
       ∧ trace w2 = trace w1 ++ replicate k (Write root1)).
Proof.
  intros Hrun.
  apply update_etymologies_inv in Hrun
    as (etymologies & d0 & values & epithets & etymologies'
        & Hset & Hget & Hiter & Hloop & [= -> ->]).
  pose proof (update_loop_resolved X _ _ _ _ _ _ _ Hloop) as [Hall _].
  assert (setdefault_etymologies (root_with d0 etymologies')
          = Ok (etymologies', dict_set ETYMOLOGIES_KEY etymologies' d0))
    as Hset'.
  { unfold setdefault_etymologies, root_with. by rewrite dict_get_set_eq. }
  assert (∀ w0, update_etymologies X false (root_with d0 etymologies')
                  epithets_root w0
                = (e <- for_each epithets
                          (update_epithet X false
                             (dict_set ETYMOLOGIES_KEY etymologies' d0))
                          etymologies' ;;
                   ret (root_with (dict_set ETYMOLOGIES_KEY etymologies' d0) e,
                        epithets_root)) w0) as Heq.
  { intros w0. unfold update_etymologies.
    unfold bind at 1, lift at 1. rewrite Hset'.
    unfold bind at 1, lift at 1. rewrite Hget.
    unfold bind at 1, lift at 1. by rewrite Hiter. }
  assert (root_with (dict_set ETYMOLOGIES_KEY etymologies' d0) etymologies'
          = root_with d0 etymologies') as Hroot.
  { unfold root_with. by rewrite dict_set_idem. }
  rewrite Heq. split.
  - pose proof (update_loop_again_writes X
                  (dict_set ETYMOLOGIES_KEY etymologies' d0)
                  epithets etymologies' w1 Hall) as Hw.
    unfold bind, ret.
    by destruct (for_each epithets _ etymologies' w1) as [[e|x] w2].
  - intros Hio.
    pose proof (update_loop_again_ok X
                  (dict_set ETYMOLOGIES_KEY etymologies' d0)
                  epithets etymologies' w1 Hall Hio) as Hok.
    eexists _, (length epithets).
    rewrite (bind_ok _ _ _ _ _ Hok). unfold ret. rewrite Hroot.
    split_and!; [done| |done]. simpl.
    destruct epithets as [|e epithets]; [done|].
    symmetry. eapply update_loop_file; [|exact Hloop]. done.
Qed.

Lemma second_run_changes_nothing_witness :
  let X := Fake.env Fake.no_faults in
  extends is_write Fake.world_after_run
    (update_etymologies X false Fake.root1 Fake.epithets_doc
       Fake.world_after_run).2
  ∧ ((∀ n, now Fake.world_after_run ≤ n → io_fault X n = NoFault) →
     ∃ w2 k,
       update_etymologies X false Fake.root1 Fake.epithets_doc
         Fake.world_after_run
       = (Ok (Fake.root1, Fake.epithets_doc), w2)
       ∧ etymologies_json w2 = etymologies_json Fake.world_after_run
       ∧ trace w2 = trace Fake.world_after_run ++ replicate k (Write Fake.root1)).
Proof.
  apply (second_run_changes_nothing (Fake.env Fake.no_faults) false
           (JObj []) Fake.epithets_doc Fake.world0
           Fake.root1 Fake.epithets_doc Fake.world_after_run).
  vm_compute. reflexivity.
Defined.

Example second_run_on_fake :
  update_etymologies (Fake.env Fake.no_faults) false Fake.root1
    Fake.epithets_doc Fake.world_after_run
  = (Ok (Fake.root1, Fake.epithets_doc),
     World (epithets_json Fake.world_after_run)
       (etymologies_json Fake.world_after_run)
       (trace Fake.world_after_run ++ [Write Fake.root1; Write Fake.root1])).
Proof. vm_compute. reflexivity. Qed.

(** ** The scenario *)

Section Scenario.

Context (X : externals) (OVERWRITE_EXISTING : bool).
Context (Hset : set_order_ok X).
Context (Hlower : str_lower X (str "vanha akka") = str "vanha akka").
Context (Hvanha1 : (length (compound_words X (str "vanha")) ≤ 1)%nat).
Context (Hakka1 : (length (compound_words X (str "akka")) ≤ 1)%nat).
Context (Hvanha : always_exists X (str "vanha")).
Context (Harticle :
  always_has_article X (str "vanha") (Article (str "vanha") (str "old") 5)).
Context (Hakka : never_exists X (str "akka")).

Lemma vanha_akka_words :
  to_words X (clean_epithet X (str "vanha akka"))
  = {[ str "akka"; str "vanha" ]}.
Proof.
  unfold clean_epithet. rewrite Hlower.
  change (keep_permitted (str "vanha akka")) with (str "vanha akka").
  apply set_eq. intros x. rewrite (to_words_elem X Hset).
  change (split SPACE (str "vanha akka")) with [str "vanha"; str "akka"].
  split.
  - intros [Hx|(token & Htoken & Hlen & _)].
    { rewrite elem_of_union, !elem_of_singleton.
      apply elem_of_cons in Hx as [->|Hx]; [by right|].
      apply list_elem_of_singleton in Hx as ->. by left. }
    apply elem_of_cons in Htoken as [->|Htoken]; [lia|].
    apply list_elem_of_singleton in Htoken as ->. lia.
  - rewrite elem_of_union, !elem_of_singleton.
    intros [->| ->]; left; [by right; left|by left].
Qed.

Lemma vanha_akka_order :
  set_order X (to_words X (clean_epithet X (str "vanha akka")))
  = [str "akka"; str "vanha"]
  ∨ set_order X (to_words X (clean_epithet X (str "vanha akka")))
    = [str "vanha"; str "akka"].
Proof.
  rewrite vanha_akka_words.
  pose proof (Hset {[ str "akka"; str "vanha" ]}) as Hperm.
  assert (elements ({[ str "akka"; str "vanha" ]} : gset pystr)
          = [str "akka"; str "vanha"]) as Hel by (vm_compute; reflexivity).
  rewrite Hel in Hperm. symmetry in Hperm.
  by apply Permutation_length_2_inv in Hperm.
Qed.

Lemma search_word_akka d w :
  dict_contains (str "akka") d = false →
  search_word X OVERWRITE_EXISTING (str "akka") (JObj d) w
  = (Ok (JObj (dict_set (str "akka") JNull d)),
     emit (Get (QsAjaxResults (str "akka"))) w).
Proof.
  intros Hnew. destruct (Hakka (now w)) as (suggestions & Hajax & Hex).
  apply (search_word_looked_up X _ _ _ _ None); [by left|].
  by eapply search_not_exists.
Qed.

Lemma search_word_vanha d w :
  dict_contains (str "vanha") d = false →
  search_word X OVERWRITE_EXISTING (str "vanha") (JObj d) w
  = (Ok (JObj (dict_set (str "vanha")
                 (JObj [(str "definition", JStr (str "old"));
                        (str "url", JStr (etym_link 5))]) d)),
     emit (Get (QsResults (str "vanha")))
       (emit (Get (QsAjaxResults (str "vanha"))) w)).
Proof.
  intros Hnew. destruct (Hvanha (now w)) as (suggestions & Hajax & Hex).
  destruct (Harticle (S (now w))) as (record & Hres & Hfind).
  apply (search_word_looked_up X _ _ _ _
           (Some (mkEtymology (str "old") (etym_link 5)))); [by left|].
  by rewrite (search_found X _ _ _ _ _ Hajax Hex Hres Hfind).
Qed.

Lemma vanha_akka_submap w :
  ∃ w1,
    search_etymologies X OVERWRITE_EXISTING (JStr (str "vanha akka")) (JObj []) w
    = (Ok (JObj [(str "akka", JNull);
                 (str "vanha",
                  JObj [(str "definition", JStr (str "old"));
                        (str "url", JStr (etym_link 5))])]), w1).
Proof.
  unfold search_etymologies.
  destruct vanha_akka_order as [-> | ->]; eexists.
  - erewrite bind_ok; cycle 1.
    { simpl for_each.
      erewrite bind_ok; [|by apply search_word_akka].
      erewrite bind_ok; [|by apply search_word_vanha].
      reflexivity. }
    reflexivity.
  - erewrite bind_ok; cycle 1.
    { simpl for_each.
      erewrite bind_ok; [|by apply search_word_vanha].
      erewrite bind_ok; [|by apply search_word_akka].
      reflexivity. }
    reflexivity.
Qed.

End Scenario.

(** C1. For the input [{"epithets": ["vanha akka"]}] and an empty prior
    document, when the service knows "vanha" with the definition "old"
    under the id 5 and does not know "akka", and the splitter splits
    neither word, the run returns and writes the store
    [{"vanha akka": {"akka": null, "vanha": {"definition": "old",
    "url": "https://kaino.kotus.fi/ses/?p=article&etym_id=5"}}}] under
    "etymologies", the keys of the submap in sorted order. *)
Theorem vanha_akka_scenario X OVERWRITE_EXISTING w :
  set_order_ok X →
  str_lower X (str "vanha akka") = str "vanha akka" →
  (length (compound_words X (str "vanha")) ≤ 1)%nat →
  (length (compound_words X (str "akka")) ≤ 1)%nat →
  always_exists X (str "vanha") →
  always_has_article X (str "vanha") (Article (str "vanha") (str "old") 5) →
  never_exists X (str "akka") →
  never_faults X →
  ∃ w',
    update_etymologies X OVERWRITE_EXISTING (JObj []) vanha_akka_input w
    = (Ok (JObj [(ETYMOLOGIES_KEY, vanha_akka_store)], vanha_akka_input), w')
    ∧ etymologies_json w'
      = Some (json_dumps X (JObj [(ETYMOLOGIES_KEY, vanha_akka_store)]))
    ∧ last (trace w')
      = Some (Write (JObj [(ETYMOLOGIES_KEY, vanha_akka_store)])).
Proof.
  intros Hset Hlower Hvanha1 Hakka1 Hvanha Harticle Hakka Hio.
  destruct (vanha_akka_submap X OVERWRITE_EXISTING Hset Hlower Hvanha1 Hakka1
              Hvanha Harticle Hakka w) as (w1 & Hsub).
  set (submap := JObj [(str "akka", JNull);
                       (str "vanha",
                        JObj [(str "definition", JStr (str "old"));
                              (str "url", JStr (etym_link 5))])]) in *.
  assert (resolve_epithet X OVERWRITE_EXISTING (JStr (str "vanha akka"))
            (JObj []) w
          = (Ok (JObj [(str "vanha akka", submap)]), w1)) as Hres.
  { unfold resolve_epithet.
    erewrite bind_ok; [|reflexivity].
    erewrite bind_ok; [|exact Hsub]. reflexivity. }
  assert (update_epithet X OVERWRITE_EXISTING [(ETYMOLOGIES_KEY, JObj [])]
            (JStr (str "vanha akka")) (JObj []) w
          = (Ok (JObj [(str "vanha akka", submap)]),
             World (epithets_json w1)
               (Some (json_dumps X
                        (JObj [(ETYMOLOGIES_KEY,
                                JObj [(str "vanha akka", submap)])])))
               (trace w1
                ++ [Write (JObj [(ETYMOLOGIES_KEY,
                                  JObj [(str "vanha akka", submap)])])])))
    as Hupd.
  { unfold update_epithet.
    erewrite bind_ok; [|exact Hres].
    unfold bind, persist, ret. by rewrite (Hio (now w1)). }
  eexists. split_and!.
  - unfold update_etymologies, vanha_akka_input.
    erewrite bind_ok; [|reflexivity]. cbv beta iota.
    erewrite bind_ok; [|reflexivity].
    erewrite bind_ok; [|reflexivity].
    erewrite bind_ok; [reflexivity|].
    simpl for_each. erewrite bind_ok; [|exact Hupd]. reflexivity.
  - reflexivity.
  - simpl. by rewrite last_snoc.
Qed.

Lemma fake_always_exists_vanha faults :
  always_exists (Fake.env faults) (str "vanha").
Proof. intros n. eexists. split; reflexivity. Qed.

Lemma fake_article_vanha faults :
  always_has_article (Fake.env faults) (str "vanha")
    (Article (str "vanha") (str "old") 5).
Proof. intros n. eexists. split; reflexivity. Qed.

Lemma fake_never_exists_akka faults :
  never_exists (Fake.env faults) (str "akka").
Proof. intros n. eexists. split; reflexivity. Qed.

Lemma vanha_akka_scenario_witness :
  let X := Fake.env Fake.no_faults in
  ∃ w',
    update_etymologies X false (JObj []) vanha_akka_input Fake.world0
    = (Ok (JObj [(ETYMOLOGIES_KEY, vanha_akka_store)], vanha_akka_input), w')
    ∧ etymologies_json w'
      = Some (json_dumps X (JObj [(ETYMOLOGIES_KEY, vanha_akka_store)]))
    ∧ last (trace w')
      = Some (Write (JObj [(ETYMOLOGIES_KEY, vanha_akka_store)])).
Proof.
  apply (vanha_akka_scenario (Fake.env Fake.no_faults) false Fake.world0).
  - apply fake_set_order_ok.
  - reflexivity.
  - vm_compute. lia.
  - vm_compute. lia.
  - apply fake_always_exists_vanha.
  - apply fake_article_vanha.
  - apply fake_never_exists_akka.
  - intros n. reflexivity.
Defined.

Example vanha_akka_on_fake :
  (update_etymologies (Fake.env Fake.no_faults) false (JObj [])
     vanha_akka_input Fake.world0).1
  = Ok (JObj [(ETYMOLOGIES_KEY, vanha_akka_store)], vanha_akka_input).
Proof. vm_compute. reflexivity. Qed.

(** ** main *)

Example main_on_fake :
  main (Fake.env Fake.no_faults) false Fake.world0
  = (Ok (), Fake.world_after_run).
Proof. vm_compute. reflexivity. Qed.

Example main_without_epithets :
  main (Fake.env Fake.no_faults) false (World None None [])
  = (Raise FileNotFoundError, World None None []).
Proof. vm_compute. reflexivity. Qed.

(** * Further properties *)

(** ** Kotus *)

(** X1. When the request is answered, [word_exists] is true exactly when
    some suggestion equals the word itself; a suggestion that merely
    starts with the word does not count. One request is sent. *)
Theorem word_exists_exact_match X word w suggestions :
  qs_ajax_results X (now w) word = Some suggestions →
  ∃ b, word_exists X word w = (Ok b, emit (Get (QsAjaxResults word)) w)
    ∧ (b = true ↔ ∃ e, e ∈ suggestions ∧ value e = word).
Proof.
  unfold word_exists, get_qs_ajax_results, bind, ret.
  intros ->. eexists. split; [reflexivity|].
  rewrite existsb_exists. split.
  - intros (e & He & Heq). exists e. split; [by apply list_elem_of_In|].
    by apply str_eqb_eq.
  - intros (e & He & Heq). exists e. split; [by apply list_elem_of_In|].
    by apply str_eqb_eq.
Qed.

Lemma word_exists_exact_match_witness :
  ∃ b, word_exists (Fake.env Fake.no_faults) (str "vanha") Fake.world0
       = (Ok b, emit (Get (QsAjaxResults (str "vanha"))) Fake.world0)
    ∧ (b = true
       ↔ ∃ e, e ∈ [Suggestion (str "vanhahko"); Suggestion (str "vanha")]
              ∧ value e = str "vanha").
Proof.
  apply (word_exists_exact_match (Fake.env Fake.no_faults) (str "vanha")
           Fake.world0).
  reflexivity.
Defined.

Example longer_suggestion_is_no_match :
  (word_exists (Fake.env Fake.no_faults) (str "vanhah") Fake.world0).1
  = Ok false.
Proof. vm_compute. reflexivity. Qed.

(** X2. [search] sends one request, or two when the word exists; both are
    about the word itself, the second only follows the first; it touches
    no file; and an etymology is only returned after both requests. *)
Theorem search_sends_at_most_two_requests X word w :
  epithets_json (search X word w).2 = epithets_json w
  ∧ etymologies_json (search X word w).2 = etymologies_json w
  ∧ (trace (search X word w).2 = trace w ++ [Get (QsAjaxResults word)]
     ∨ trace (search X word w).2
       = trace w ++ [Get (QsAjaxResults word); Get (QsResults word)])
  ∧ (∀ etymology,
       (search X word w).1 = Ok (Some etymology) →
       trace (search X word w).2
       = trace w ++ [Get (QsAjaxResults word); Get (QsResults word)]).
Proof.
  unfold search, word_exists, get_qs_ajax_results, get_qs_results, bind, ret.
  destruct (qs_ajax_results X (now w) word) as [suggestions|]; simpl.
  2:{ split_and!; try done. by left. }
  destruct (existsb _ suggestions); simpl.
  2:{ split_and!; try done. by left. }
  destruct (qs_results X _ word) as [record|]; simpl.
  - destruct (List.find _ record); simpl; rewrite <- app_assoc; simpl;
      split_and!; try done; by right.
  - rewrite <- app_assoc; simpl. split_and!; try done. by right.
Qed.

(** X3. When the word exists, [search] returns the first article whose
    headword is the word itself, whatever articles come before it: its
    text becomes the definition and its id ends the link. *)
Theorem search_returns_first_exact_article
    X word w suggestions before e after :
  qs_ajax_results X (now w) word = Some suggestions →
  (∃ s, s ∈ suggestions ∧ value s = word) →
  qs_results X (S (now w)) word = Some (before ++ e :: after) →
  (∀ b, b ∈ before → hakusana b ≠ word) →
  hakusana e = word →
  search X word w
  = (Ok (Some (mkEtymology (selite e)
                 (str "https://kaino.kotus.fi/ses/?p=article&etym_id="
                  ++ str_of_int (etym_id e)))),
     emit (Get (QsResults word)) (emit (Get (QsAjaxResults word)) w)).
Proof.
  intros Hajax (s & Hs & Hvalue) Hres Hbefore He.
  apply (search_found X word w suggestions (before ++ e :: after) e);
    try done.
  - apply existsb_exists. exists s. split; [by apply list_elem_of_In|].
    by apply str_eqb_eq.
  - clear Hres. induction before as [|b before IH]; simpl.
    + by rewrite (proj2 (str_eqb_eq _ _) He).
    + rewrite str_eqb_ne by (apply Hbefore; by left).
      apply IH. intros b' Hb'. apply Hbefore. by right.
Qed.

Lemma search_returns_first_exact_article_witness :
  search (Fake.env Fake.no_faults) (str "vanha") Fake.world0
  = (Ok (Some (mkEtymology (str "old")
                 (str "https://kaino.kotus.fi/ses/?p=article&etym_id="
                  ++ str_of_int 5))),
     emit (Get (QsResults (str "vanha")))
       (emit (Get (QsAjaxResults (str "vanha"))) Fake.world0)).
Proof.
  apply (search_returns_first_exact_article (Fake.env Fake.no_faults)
           (str "vanha") Fake.world0
           [Suggestion (str "vanhahko"); Suggestion (str "vanha")]
           [Article (str "vanhahko") (str "oldish") 7]
           (Article (str "vanha") (str "old") 5) []).
  - reflexivity.
  - exists (Suggestion (str "vanha")). split; [|reflexivity].
    apply elem_of_cons. right. apply elem_of_cons. left. reflexivity.
  - reflexivity.
  - intros b Hb. apply list_elem_of_singleton in Hb. subst b. discriminate.
  - reflexivity.
Defined.

(** ** clean_epithet *)

Lemma permitted_spec c :
  permitted c = true
  ↔ (97 ≤ c ≤ 122)%N ∨ c = 228%N ∨ c = 229%N ∨ c = 246%N
    ∨ c = SPACE ∨ c = HYPHEN.
Proof.
  unfold permitted.
  rewrite !orb_true_iff, andb_true_iff, !N.leb_le, !N.eqb_eq. tauto.
Qed.

(** X4. A cleaned epithet consists of the letters a to z, ä, å, ö, spaces
    and hyphens only; it is what is left of the lower-cased epithet, in
    the same order; and it keeps every permitted character as often as
    the lower-cased epithet has it. *)
Theorem clean_epithet_keeps_only_permitted X epithet :
  Forall (λ c, (97 ≤ c ≤ 122)%N ∨ c = 228%N ∨ c = 229%N ∨ c = 246%N
               ∨ c = SPACE ∨ c = HYPHEN) (clean_epithet X epithet)
  ∧ sublist (clean_epithet X epithet) (str_lower X epithet)
  ∧ (∀ c, permitted c = true →
          count_occ N.eq_dec (clean_epithet X epithet) c
          = count_occ N.eq_dec (str_lower X epithet) c).
Proof.
  unfold clean_epithet, keep_permitted.
  induction (str_lower X epithet) as [|c s (IH1 & IH2 & IH3)]; simpl.
  - split_and!; [constructor|constructor|done].
  - destruct (permitted c) eqn:Hc.
    + split_and!.
      * constructor; [by apply permitted_spec|done].
      * by constructor.
      * intros c' Hp. simpl. rewrite (IH3 c' Hp). done.
    + split_and!; [done|by constructor|].
      intros c' Hp. rewrite (IH3 c' Hp).
      destruct (N.eq_dec c c') as [->|Hne]; [congruence|done].
Qed.

Example clean_epithet_keeps_repeated_letters :
  clean_epithet (Fake.env Fake.no_faults) (str "Vanha, AKKA 2!")
  = str "vanha akka ".
Proof. vm_compute. reflexivity. Qed.

Lemma keep_permitted_all s :
  Forall (λ c, permitted c = true) s → keep_permitted s = s.
Proof.
  unfold keep_permitted. induction 1 as [|c s Hc _ IH]; simpl; [done|].
  by rewrite Hc, IH.
Qed.

Lemma keep_permitted_permitted s :
  Forall (λ c, permitted c = true) (keep_permitted s).
Proof.
  unfold keep_permitted. induction s as [|c s IH]; simpl; [constructor|].
  destruct (permitted c) eqn:Hc; [by constructor|done].
Qed.

(** X5. Cleaning is idempotent as soon as lower-casing leaves the cleaned
    epithet alone, as it does for lower-case letters, spaces and
    hyphens. *)
Theorem clean_epithet_idempotent X epithet :
  str_lower X (clean_epithet X epithet) = clean_epithet X epithet →
  clean_epithet X (clean_epithet X epithet) = clean_epithet X epithet.
Proof.
  intros Hlower. unfold clean_epithet at 1. rewrite Hlower.
  apply keep_permitted_all, keep_permitted_permitted.
Qed.

Lemma clean_epithet_idempotent_witness :
  clean_epithet (Fake.env Fake.no_faults)
    (clean_epithet (Fake.env Fake.no_faults) (str "Iso-Aiti, 2 kpl!"))
  = clean_epithet (Fake.env Fake.no_faults) (str "Iso-Aiti, 2 kpl!").
Proof.
  apply (clean_epithet_idempotent (Fake.env Fake.no_faults)
           (str "Iso-Aiti, 2 kpl!")).
  vm_compute. reflexivity.
Defined.

(** ** to_words *)

Lemma update_loop_grows (X : externals) (l : list pystr) (acc : gset pystr) :
  acc ⊆ foldl
          (λ (segments : gset pystr) segment,
             if (1 <? length (compound_words X segment))%nat
             then segments ∪ list_to_set (compound_words X segment)
             else segments)
          acc l.
Proof.
  intros x Hx. apply update_loop_elem. by left.
Qed.

Lemma split_not_nil sep s : split sep s ≠ [].
Proof.
  destruct s as [|c s]; simpl; [done|].
  destruct (N.eqb c sep); [done|]. by destruct (split sep s).
Qed.

Lemma to_words_never_empty_aux (X : externals) epithet :
  ∃ token, token ∈ to_words X epithet.
Proof.
  destruct (split SPACE epithet) as [|token rest] eqn:E.
  - by apply split_not_nil in E.
  - exists token. unfold to_words. apply update_loop_grows. rewrite E.
    apply elem_of_list_to_set. by left.
Qed.

(** X6. The set of words is never empty, whatever the epithet, the
    splitter and the iteration order: the first token of the epithet,
    possibly the empty string, is always in it. *)
Theorem to_words_never_empty X epithet :
  to_words X epithet ≠ ∅
  ∧ ∃ token rest, split SPACE epithet = token :: rest
                  ∧ token ∈ to_words X epithet.
Proof.
  assert (∃ token rest, split SPACE epithet = token :: rest
                        ∧ token ∈ to_words X epithet) as Hex.
  { destruct (split SPACE epithet) as [|token rest] eqn:E.
    - by apply split_not_nil in E.
    - exists token, rest. split; [done|].
      unfold to_words. apply update_loop_grows. rewrite E.
      apply elem_of_list_to_set. by left. }
  split; [|done]. destruct Hex as (token & _ & _ & Htoken).
  intros Hempty. rewrite Hempty in Htoken. by apply not_elem_of_empty in Htoken.
Qed.

Lemma to_words_same X Y epithet1 epithet2 :
  set_order_ok X →
  set_order_ok Y →
  (∀ s, finn_syll_split X s = finn_syll_split Y s) →
  split SPACE epithet1 ≡ₚ split SPACE epithet2 →
  to_words X epithet1 = to_words Y epithet2.
Proof.
  intros HX HY Hsplit Hperm. apply set_eq. intros x.
  rewrite (to_words_elem X HX), (to_words_elem Y HY).
  assert (∀ segment, compound_words X segment = compound_words Y segment)
    as Hcw.
  { intros segment. unfold compound_words. by rewrite Hsplit. }
  setoid_rewrite Hcw. by setoid_rewrite Hperm.
Qed.

(** X7. The set of words depends neither on the order of the tokens in the
    epithet nor on the order in which sets are iterated: two epithets with
    the same tokens, in environments with the same splitter, have the same
    words. *)
Theorem to_words_ignores_order X Y epithet1 epithet2 :
  set_order_ok X →
  set_order_ok Y →
  (∀ s, finn_syll_split X s = finn_syll_split Y s) →
  split SPACE epithet1 ≡ₚ split SPACE epithet2 →
  to_words X epithet1 = to_words Y epithet2.
Proof. apply to_words_same. Qed.

Lemma fake2_reversed_ok faults : set_order_ok (Fake2.env_reversed faults).
Proof. intros s. simpl. apply reverse_Permutation. Qed.

Lemma to_words_ignores_order_witness :
  to_words (Fake.env Fake.no_faults) (str "iso vanhapiika")
  = to_words (Fake2.env_reversed Fake.no_faults) (str "vanhapiika iso").
Proof.
  apply (to_words_ignores_order (Fake.env Fake.no_faults)
           (Fake2.env_reversed Fake.no_faults)
           (str "iso vanhapiika") (str "vanhapiika iso")).
  - apply fake_set_order_ok.
  - apply fake2_reversed_ok.
  - intros s. reflexivity.
  - vm_compute. apply Permutation_swap.
Defined.

(** ** search_etymologies *)

Section Submap.

Context (X : externals).

Lemma search_events word w :
  etymologies_json (search X word w).2 = etymologies_json w
  ∧ (trace (search X word w).2 = trace w ++ [Get (QsAjaxResults word)]
     ∨ trace (search X word w).2
       = trace w ++ [Get (QsAjaxResults word); Get (QsResults word)]).
Proof.
  unfold search, word_exists, get_qs_ajax_results, get_qs_results, bind, ret.
  destruct (qs_ajax_results X (now w) word) as [suggestions|]; simpl.
  2:{ split; [done|]. by left. }
  destruct (existsb _ suggestions); simpl.
  2:{ split; [done|]. by left. }
  destruct (qs_results X _ word) as [record|]; simpl.
  - destruct (List.find _ record); simpl; rewrite <- app_assoc; simpl;
      (split; [done|]); by right.
  - rewrite <- app_assoc; simpl. split; [done|]. by right.
Qed.

Lemma search_word_keeps word d w j w' :
  search_word X false word (JObj d) w = (Ok j, w') →
  ∃ d1, j = JObj d1 ∧ ∀ k v, dict_get k d = Some v → dict_get k d1 = Some v.
Proof.
  unfold search_word, bind, lift; simpl. rewrite andb_true_r.
  destruct (dict_contains word d) eqn:E.
  - intros [= <- <-]. by exists d.
  - destruct (search X word w) as [[etymology|e] w1]; [|done].
    intros [= <- <-]. eexists. split; [done|]. intros k v Hk.
    rewrite dict_get_set_ne; [done|]. intros ->.
    unfold dict_contains in E. by rewrite Hk in E.
Qed.

Lemma words_loop_keeps (l : list pystr) d w d' w' :
  for_each l (search_word X false) (JObj d) w = (Ok (JObj d'), w') →
  ∀ k v, dict_get k d = Some v → dict_get k d' = Some v.
Proof.
  revert d w. induction l as [|word l IH]; intros d w; simpl.
  - by intros [= -> <-].
  - intros (j1 & w1 & Hstep & Hrest)%bind_inv_ok k v Hk.
    apply search_word_keeps in Hstep as (d1 & -> & Hkeep).
    eapply IH; [exact Hrest|]. by apply Hkeep.
Qed.

(** X8. The submap [search_etymologies] returns has exactly the keys of
    the submap it was given and the words of the epithet; the entries of
    keys that are no words of the epithet are as they were; and with the
    overwrite policy off every entry that was there is as it was. *)
Theorem search_etymologies_keeps_entries
    OVERWRITE_EXISTING epithet prior w found w' :
  set_order_ok X →
  search_etymologies X OVERWRITE_EXISTING (JStr epithet) prior w
  = (Ok found, w') →
  ∃ p d,
    prior = JObj p ∧ found = JObj d
    ∧ (∀ k, dict_contains k d = true
            ↔ dict_contains k p = true
              ∨ k ∈ to_words X (clean_epithet X epithet))
    ∧ (∀ k, k ∉ to_words X (clean_epithet X epithet) →
            dict_get k d = dict_get k p)
    ∧ (OVERWRITE_EXISTING = false →
       ∀ k v, dict_get k p = Some v → dict_get k d = Some v).
Proof.
  intros Hset Hrun.
  apply search_etymologies_inv in Hrun
    as (s & p & d' & [= <-] & -> & -> & Hloop).
  pose proof (words_loop_obj _ _ _ _ _ _ _ Hloop)
    as (p' & [= <-] & Hall & Hmono & Hother & _).
  exists p, (sorted d'). split_and!; try done.
  - intros k. rewrite dict_contains_sorted, <- (set_order_elem X Hset).
    split.
    + intros Hk.
      destruct (decide (k ∈ set_order X (to_words X (clean_epithet X epithet))))
        as [Hin|Hout]; [by right|left].
      unfold dict_contains in *. by rewrite <- (Hother k Hout).
    + intros [Hk|Hk]; [by apply Hmono|by apply Hall].
  - intros k Hk. rewrite dict_get_sorted. apply Hother.
    by rewrite (set_order_elem X Hset).
  - intros -> k v Hk. rewrite dict_get_sorted.
    by apply (words_loop_keeps _ _ _ _ _ Hloop).
Qed.

Lemma words_loop_asks_missing (l : list pystr) d w :
  ∃ evs,
    trace (for_each l (search_word X false) (JObj d) w).2 = trace w ++ evs
    ∧ ∀ ev, ev ∈ evs →
        ∃ r, ev = Get r ∧ request_word r ∈ l
             ∧ dict_contains (request_word r) d = false.
Proof.
  revert d w. induction l as [|word l IH]; intros d w; simpl.
  - exists []. rewrite app_nil_r. split; [done|]. by intros ev ?%elem_of_nil.
  - unfold bind at 1, search_word at 1, bind, lift; simpl.
    rewrite andb_true_r. destruct (dict_contains word d) eqn:E; simpl.
    + destruct (IH d w) as (evs & Ht & Hevs). exists evs. split; [done|].
      intros ev Hev. destruct (Hevs ev Hev) as (r & -> & Hr & Hc).
      exists r. split_and!; [done|by right|done].
    + destruct (search_events word w) as (_ & Htrace).
      assert (∃ evs1, trace (search X word w).2 = trace w ++ evs1
                ∧ ∀ ev, ev ∈ evs1 → ∃ r, ev = Get r ∧ request_word r = word)
        as (evs1 & Ht1 & Hevs1).
      { destruct Htrace as [Ht|Ht]; eexists; (split; [exact Ht|]);
          intros ev Hev; repeat (apply elem_of_cons in Hev as [->|Hev]);
          try (by eexists); by apply elem_of_nil in Hev. }
      destruct (search X word w) as [[etymology|e] w1]; simpl in *.
      * destruct (IH (dict_set word (etymology_json etymology) d) w1)
          as (evs & Ht & Hevs).
        exists (evs1 ++ evs). rewrite Ht, Ht1, app_assoc. split; [done|].
        intros ev [Hev|Hev]%elem_of_app.
        -- destruct (Hevs1 ev Hev) as (r & -> & Hr). exists r.
           rewrite Hr. split_and!; [done|by left|done].
        -- destruct (Hevs ev Hev) as (r & -> & Hr & Hc). exists r.
           split_and!; [done|by right|].
           rewrite dict_contains_set in Hc.
           by destruct (str_eqb word (request_word r)).
      * exists evs1. split; [done|]. intros ev Hev.
        destruct (Hevs1 ev Hev) as (r & -> & Hr). exists r.
        rewrite Hr. split_and!; [done|by left|done].
Qed.

(** X9. With the overwrite policy off, whatever the outcome, every request
    [search_etymologies] sends is about a word of the epithet that the
    submap it was given does not have. *)
Theorem search_etymologies_asks_missing_words_only epithet p w :
  set_order_ok X →
  ∃ evs,
    trace (search_etymologies X false (JStr epithet) (JObj p) w).2
    = trace w ++ evs
    ∧ ∀ ev, ev ∈ evs →
        ∃ r, ev = Get r
             ∧ request_word r ∈ to_words X (clean_epithet X epithet)
             ∧ dict_contains (request_word r) p = false.
Proof.
  intros Hset. unfold search_etymologies.
  destruct (words_loop_asks_missing
              (set_order X (to_words X (clean_epithet X epithet))) p w)
    as (evs & Ht & Hevs).
  exists evs. split.
  - unfold bind at 1.
    destruct (for_each _ _ (JObj p) w) as [[j|e] w1]; simpl in *; [|done].
    unfold bind, lift, ret. by destruct (py_items j).
  - intros ev Hev. destruct (Hevs ev Hev) as (r & -> & Hr & Hc).
    exists r. split_and!; [done| |done]. by apply (set_order_elem X Hset).
Qed.

End Submap.

Lemma search_etymologies_keeps_entries_witness :
  ∃ p d,
    JObj [(str "vanha", JStr (str "kept")); (str "muu", JNull)] = JObj p
    ∧ JObj [(str "akka", JNull); (str "muu", JNull);
            (str "vanha", JStr (str "kept"))] = JObj d
    ∧ (∀ k, dict_contains k d = true
            ↔ dict_contains k p = true
              ∨ k ∈ to_words (Fake.env Fake.no_faults)
                      (clean_epithet (Fake.env Fake.no_faults)
                         (str "Vanha akka!")))
    ∧ (∀ k, k ∉ to_words (Fake.env Fake.no_faults)
                  (clean_epithet (Fake.env Fake.no_faults)
                     (str "Vanha akka!")) →
            dict_get k d = dict_get k p)
    ∧ (false = false →
       ∀ k v, dict_get k p = Some v → dict_get k d = Some v).
Proof.
  apply (search_etymologies_keeps_entries (Fake.env Fake.no_faults) false (str "Vanha akka!")
           (JObj [(str "vanha", JStr (str "kept")); (str "muu", JNull)])
           Fake.world0 _
           (emit (Get (QsAjaxResults (str "akka"))) Fake.world0)).
  - apply fake_set_order_ok.
  - vm_compute. reflexivity.
Defined.

Lemma search_etymologies_asks_missing_words_only_witness :
  ∃ evs,
    trace (search_etymologies (Fake.env Fake.no_faults) false
             (JStr (str "Vanha akka!")) (JObj [(str "vanha", JNull)])
             Fake.world0).2
    = trace Fake.world0 ++ evs
    ∧ ∀ ev, ev ∈ evs →
        ∃ r, ev = Get r
             ∧ request_word r
               ∈ to_words (Fake.env Fake.no_faults)
                   (clean_epithet (Fake.env Fake.no_faults)
                      (str "Vanha akka!"))
             ∧ dict_contains (request_word r) [(str "vanha", JNull)] = false.
Proof.
  apply (search_etymologies_asks_missing_words_only
           (Fake.env Fake.no_faults) (str "Vanha akka!")
           [(str "vanha", JNull)] Fake.world0).
  apply fake_set_order_ok.
Defined.

Lemma words_loop_requeries X (l : list pystr) j w j' w' :
  for_each l (search_word X true) j w = (Ok j', w') →
  ∃ evs, trace w' = trace w ++ evs
    ∧ ∀ word, word ∈ l → Get (QsAjaxResults word) ∈ evs.
Proof.
  revert j w. induction l as [|word l IH]; intros j w; simpl.
  - intros [= -> <-]. exists []. rewrite app_nil_r. split; [done|].
    by intros word ?%elem_of_nil.
  - intros (j1 & w1 & Hstep & Hrest)%bind_inv_ok.
    apply IH in Hrest as (evs & Ht & Hevs).
    unfold search_word in Hstep.
    apply bind_inv_ok in Hstep as (present & w0 & [_ ->]%lift_inv_ok & Hstep).
    rewrite andb_false_r in Hstep.
    apply bind_inv_ok in Hstep as (etymology & w2 & Hsearch & [_ ->]%lift_inv_ok).
    destruct (search_first_event X word w) as (evs0 & Ht0).
    rewrite Hsearch in Ht0. simpl in Ht0.
    exists (Get (QsAjaxResults word) :: evs0 ++ evs).
    rewrite Ht, Ht0, <- app_assoc. split; [done|].
    intros word' [->|Hword']%elem_of_cons; [by left|].
    right. apply elem_of_app. right. by apply Hevs.
Qed.

(** X10. With the overwrite policy on, a call of [search_etymologies] that
    returns has asked the service about every word of the epithet, the
    ones the submap already had included. *)
Theorem overwrite_asks_every_word X epithet prior w found w' :
  set_order_ok X →
  search_etymologies X true (JStr epithet) prior w = (Ok found, w') →
  ∃ evs, trace w' = trace w ++ evs
    ∧ ∀ word, word ∈ to_words X (clean_epithet X epithet) →
              Get (QsAjaxResults word) ∈ evs.
Proof.
  intros Hset Hrun.
  apply search_etymologies_inv in Hrun
    as (s & p & d' & [= <-] & -> & -> & Hloop).
  apply words_loop_requeries in Hloop as (evs & Ht & Hevs).
  exists evs. split; [done|]. intros word Hword.
  by apply Hevs, (set_order_elem X Hset).
Qed.

Lemma overwrite_asks_every_word_witness :
  ∃ evs,
    [Get (QsAjaxResults (str "akka"));
     Get (QsAjaxResults (str "vanha"));
     Get (QsResults (str "vanha"))] = trace Fake.world0 ++ evs
    ∧ ∀ word,
        word ∈ to_words (Fake.env Fake.no_faults)
                 (clean_epithet (Fake.env Fake.no_faults) (str "Vanha akka!")) →
        Get (QsAjaxResults word) ∈ evs.
Proof.
  apply (overwrite_asks_every_word (Fake.env Fake.no_faults)
           (str "Vanha akka!")
           (JObj [(str "vanha", JNull); (str "akka", JStr (str "x"))])
           Fake.world0
           (JObj [(str "akka", JNull);
                  (str "vanha",
                   JObj [(str "definition", JStr (str "old"));
                         (str "url", JStr (etym_link 5))])])
           (World (epithets_json Fake.world0) (etymologies_json Fake.world0)
              [Get (QsAjaxResults (str "akka"));
               Get (QsAjaxResults (str "vanha"));
               Get (QsResults (str "vanha"))])).
  - apply fake_set_order_ok.
  - vm_compute. reflexivity.
Defined.

(** X11. An epithet that is no string makes the turn raise [TypeError] or
    [AttributeError] at once: no request is sent and no file touched. *)
Theorem resolve_epithet_rejects_non_strings
    X OVERWRITE_EXISTING epithet etymologies w :
  (∀ s, epithet ≠ JStr s) →
  ∃ e, resolve_epithet X OVERWRITE_EXISTING epithet etymologies w
       = (Raise e, w)
    ∧ (e = TypeError ∨ e = AttributeError).
Proof.
  intros Hno. unfold resolve_epithet, bind, lift, search_etymologies, raise.
  destruct etymologies; simpl; try (by eexists; split; [reflexivity|auto]).
  destruct epithet; simpl; try (by eexists; split; [reflexivity|auto]).
  by destruct (Hno s).
Qed.

Lemma resolve_epithet_rejects_non_strings_witness :
  ∃ e, resolve_epithet (Fake.env Fake.no_faults) false (JNum (PyInt 7))
         Fake.etymologies1 Fake.world0
       = (Raise e, Fake.world0)
    ∧ (e = TypeError ∨ e = AttributeError).
Proof.
  apply (resolve_epithet_rejects_non_strings (Fake.env Fake.no_faults) false
           (JNum (PyInt 7)) Fake.etymologies1 Fake.world0).
  intros s. discriminate.
Defined.

(** X12. A store that maps the epithet to null, to a number or to a boolean
    makes the turn raise [TypeError] at the first membership test: no
    request is sent and no file touched. *)
Theorem resolve_epithet_rejects_scalar_submap
    X OVERWRITE_EXISTING epithet d v w :
  set_order_ok X →
  dict_get epithet d = Some v →
  (v = JNull ∨ (∃ b, v = JBool b) ∨ (∃ n, v = JNum n)) →
  resolve_epithet X OVERWRITE_EXISTING (JStr epithet) (JObj d) w
  = (Raise TypeError, w).
Proof.
  intros Hset Hget Hv.
  unfold resolve_epithet, bind at 1, lift at 1; simpl. rewrite Hget.
  unfold bind at 1, search_etymologies, bind at 1.
  destruct (set_order X (to_words X (clean_epithet X epithet)))
    as [|word l] eqn:E.
  - destruct (to_words_never_empty_aux X (clean_epithet X epithet))
      as (token & Htoken).
    apply (set_order_elem X Hset) in Htoken. rewrite E in Htoken.
    by apply elem_of_nil in Htoken.
  - simpl. unfold bind at 1, search_word, bind at 1, lift at 1.
    by destruct Hv as [->|[[b ->]|[n ->]]].
Qed.

Lemma resolve_epithet_rejects_scalar_submap_witness :
  resolve_epithet (Fake.env Fake.no_faults) false (JStr (str "akka"))
    (JObj [(str "akka", JNull)]) Fake.world0
  = (Raise TypeError, Fake.world0).
Proof.
  apply (resolve_epithet_rejects_scalar_submap (Fake.env Fake.no_faults)
           false (str "akka") [(str "akka", JNull)] JNull Fake.world0).
  - apply fake_set_order_ok.
  - reflexivity.
  - left. reflexivity.
Defined.

(** ** The order of the words does not show *)

Lemma search_same_world X word w w0 :
  stateless X → (search X word w).1 = (search X word w0).1.
Proof.
  intros Hst.
  unfold search, word_exists, get_qs_ajax_results, get_qs_results, bind, ret.
  rewrite (proj1 (Hst (now w) (now w0) word)).
  destruct (qs_ajax_results X (now w0) word) as [suggestions|]; simpl; [|done].
  destruct (existsb _ suggestions); simpl; [|done].
  rewrite (proj2 (Hst (now (emit (Get (QsAjaxResults word)) w))
                    (now (emit (Get (QsAjaxResults word)) w0)) word)).
  destruct (qs_results X _ word) as [record|]; simpl; [|done].
  by destruct (List.find _ record).
Qed.

Lemma search_same_service X Y word w :
  same_service X Y → search X word w = search Y word w.
Proof.
  intros (_ & _ & Hajax & Hres).
  unfold search, word_exists, get_qs_ajax_results, get_qs_results, bind, ret.
  rewrite Hajax.
  destruct (qs_ajax_results Y (now w) word) as [suggestions|]; simpl; [|done].
  destruct (existsb _ suggestions); simpl; [|done].
  by rewrite Hres.
Qed.

(** The entries after the loop over the words, for a service whose answers
    do not depend on the moment. *)
Lemma words_loop_entries X ow (l : list pystr) d w d' w' :
  stateless X →
  NoDup l →
  for_each l (search_word X ow) (JObj d) w = (Ok (JObj d'), w') →
  ∀ k,
    (k ∈ l → dict_contains k d = false ∨ ow = true →
     ∃ e, (∀ w0, (search X k w0).1 = Ok e)
          ∧ dict_get k d' = Some (etymology_json e))
    ∧ (k ∈ l → dict_contains k d = true → ow = false →
       dict_get k d' = dict_get k d)
    ∧ (k ∉ l → dict_get k d' = dict_get k d).
Proof.
  intros Hst. revert d w.
  induction l as [|word l IH]; intros d w Hnd; simpl.
  - intros [= -> <-] k. split_and!; try done; by intros ?%elem_of_nil.
  - apply NoDup_cons in Hnd as [Hword Hnd].
    intros (j1 & w1 & Hstep & Hrest)%bind_inv_ok.
    assert (∃ d1, j1 = JObj d1
              ∧ ((dict_contains word d = true ∧ ow = false ∧ d1 = d)
                 ∨ ((dict_contains word d = false ∨ ow = true)
                    ∧ ∃ e, search X word w = (Ok e, w1)
                           ∧ d1 = dict_set word (etymology_json e) d)))
      as (d1 & -> & Hcase).
    { unfold search_word, bind, lift in Hstep; simpl in Hstep.
      destruct (dict_contains word d) eqn:Ec; destruct ow; simpl in Hstep.
      - destruct (search X word w) as [[e|x] w2]; [|done].
        injection Hstep as <- <-. eexists. split; [done|]. right.
        split; [by right|]. by exists e.
      - injection Hstep as <- <-. exists d. split; [done|]. by left.
      - destruct (search X word w) as [[e|x] w2]; [|done].
        injection Hstep as <- <-. eexists. split; [done|]. right.
        split; [by left|]. by exists e.
      - destruct (search X word w) as [[e|x] w2]; [|done].
        injection Hstep as <- <-. eexists. split; [done|]. right.
        split; [by left|]. by exists e. }
    pose proof (IH d1 w1 Hnd Hrest) as Hspec.
    intros k. destruct (decide (k = word)) as [->|Hne].
    + destruct (Hspec word) as (_ & _ & Hout). specialize (Hout Hword).
      destruct Hcase as [(Hc & How & ->)|(Hlook & e & Hsearch & ->)].
      * split_and!; [|done|].
        -- intros _ [Hc'| ->]; congruence.
        -- intros Hk. destruct Hk. by left.
      * split_and!.
        -- intros _ _. exists e. split.
           ++ intros w0. rewrite (search_same_world X word w0 w Hst).
              by rewrite Hsearch.
           ++ by rewrite Hout, dict_get_set_eq.
        -- intros _ Hc How. destruct Hlook; congruence.
        -- intros Hk. destruct Hk. by left.
    + destruct (Hspec k) as (Hnew & Hold & Hout).
      assert (dict_contains k d1 = dict_contains k d
              ∧ dict_get k d1 = dict_get k d) as [Hc1 Hg1].
      { destruct Hcase as [(_ & _ & ->)|(_ & e & _ & ->)]; [done|].
        rewrite dict_contains_set, str_eqb_ne by done.
        by rewrite dict_get_set_ne. }
      rewrite Hc1, Hg1 in *. split_and!.
      * intros [?|Hk]%elem_of_cons; [done|]. by apply Hnew.
      * intros [?|Hk]%elem_of_cons; [done|]. by apply Hold.
      * intros Hk. apply Hout. intros Hk'. apply Hk. by right.
Qed.

Lemma strictly_sorted_above k ks :
  Sorted (λ a b, str_ltb a b = true) (k :: ks) →
  ∀ x, x ∈ ks → str_ltb k x = true.
Proof.
  intros Hs x Hx.
  apply Sorted_StronglySorted in Hs;
    [|intros a b c; apply str_ltb_trans].
  apply StronglySorted_inv in Hs as [_ Hall].
  rewrite Forall_forall in Hall. by apply Hall.
Qed.

Lemma dict_get_none_keys k d : dict_get k d = None ↔ k ∉ dict_keys d.
Proof.
  rewrite <- dict_contains_keys. unfold dict_contains.
  destruct (dict_get k d); split; done.
Qed.

Lemma strictly_sorted_head_absent k v d :
  keys_strictly_sorted ((k, v) :: d) → dict_get k d = None.
Proof.
  intros Hs. apply dict_get_none_keys. intros Hin.
  pose proof (strictly_sorted_above _ _ Hs k Hin) as Hlt.
  by rewrite str_ltb_irrefl in Hlt.
Qed.

Lemma strictly_sorted_below_absent k k' v d :
  keys_strictly_sorted ((k', v) :: d) → str_ltb k k' = true →
  dict_get k ((k', v) :: d) = None.
Proof.
  intros Hs Hlt. apply dict_get_none_keys. intros Hin.
  apply elem_of_cons in Hin as [->|Hin].
  - by rewrite str_ltb_irrefl in Hlt.
  - pose proof (strictly_sorted_above _ _ Hs k Hin) as Hlt'.
    pose proof (str_ltb_trans _ _ _ Hlt Hlt') as Hkk.
    by rewrite str_ltb_irrefl in Hkk.
Qed.

(** Two dicts with strictly sorted keys and the same entries are equal. *)
Lemma strictly_sorted_ext a b :
  keys_strictly_sorted a → keys_strictly_sorted b →
  (∀ k, dict_get k a = dict_get k b) → a = b.
Proof.
  revert b. induction a as [|[k1 v1] a IH]; intros [|[k2 v2] b] Ha Hb Heq.
  - done.
  - specialize (Heq k2). simpl in Heq. by rewrite str_eqb_refl in Heq.
  - specialize (Heq k1). simpl in Heq. by rewrite str_eqb_refl in Heq.
  - assert (k1 = k2) as <-.
    { destruct (str_compare k1 k2) eqn:E.
      - by apply str_compare_eq.
      - pose proof (strictly_sorted_below_absent k1 k2 v2 b Hb) as Hnone.
        unfold str_ltb in Hnone. rewrite E in Hnone.
        specialize (Hnone eq_refl). rewrite <- Heq in Hnone.
        simpl in Hnone. by rewrite str_eqb_refl in Hnone.
      - pose proof (strictly_sorted_below_absent k2 k1 v1 a Ha) as Hnone.
        unfold str_ltb in Hnone. rewrite (str_compare_antisym k1 k2), E in Hnone.
        specialize (Hnone eq_refl). rewrite Heq in Hnone.
        simpl in Hnone. by rewrite str_eqb_refl in Hnone. }
    pose proof (Heq k1) as Hv. simpl in Hv. rewrite str_eqb_refl in Hv.
    injection Hv as <-. f_equal.
    apply IH.
    + unfold keys_strictly_sorted in *. simpl in Ha. by apply Sorted_inv in Ha as [? _].
    + unfold keys_strictly_sorted in *. simpl in Hb. by apply Sorted_inv in Hb as [? _].
    + intros k. destruct (decide (k = k1)) as [->|Hne].
      * by rewrite (strictly_sorted_head_absent _ _ _ Ha),
          (strictly_sorted_head_absent _ _ _ Hb).
      * specialize (Heq k). simpl in Heq.
        by rewrite (str_eqb_ne k1 k) in Heq by done.
Qed.

(** X13. For a service whose answers do not depend on the moment of the
    call, the submap [search_etymologies] returns depends neither on the
    order in which the set of words is iterated nor on what happened
    before: two calls that return, in environments that differ in the
    iteration order only, return the same submap. *)
Theorem search_etymologies_ignores_iteration_order
    X Y OVERWRITE_EXISTING epithet prior wx wy found_x found_y wx' wy' :
  set_order_ok X →
  set_order_ok Y →
  same_service X Y →
  stateless X →
  distinct_keys prior →
  search_etymologies X OVERWRITE_EXISTING (JStr epithet) (JObj prior) wx
  = (Ok found_x, wx') →
  search_etymologies Y OVERWRITE_EXISTING (JStr epithet) (JObj prior) wy
  = (Ok found_y, wy') →
  found_x = found_y.
Proof.
  intros HX HY Hsame HstX Hnd Hx Hy.
  assert (stateless Y) as HstY.
  { destruct Hsame as (_ & _ & Hajax & Hres). intros n m word.
    rewrite <- !Hajax, <- !Hres. apply HstX. }
  assert (clean_epithet X epithet = clean_epithet Y epithet) as Hclean.
  { unfold clean_epithet. by rewrite (proj1 Hsame). }
  assert (to_words X (clean_epithet X epithet)
          = to_words Y (clean_epithet Y epithet)) as Hwords.
  { rewrite Hclean. apply to_words_same; try done. apply Hsame. }
  apply search_etymologies_inv in Hx
    as (s & p & dx & [= <-] & [= <-] & -> & Hloopx).
  apply search_etymologies_inv in Hy
    as (s & p & dy & [= <-] & [= <-] & -> & Hloopy).
  pose proof (words_loop_obj _ _ _ _ _ _ _ Hloopx) as (? & [= <-] & _ & _ & _ & Hdx).
  pose proof (words_loop_obj _ _ _ _ _ _ _ Hloopy) as (? & [= <-] & _ & _ & _ & Hdy).
  pose proof (words_loop_entries X _ _ _ _ _ _ HstX
                (set_order_NoDup X HX _) Hloopx) as Hex.
  pose proof (words_loop_entries Y _ _ _ _ _ _ HstY
                (set_order_NoDup Y HY _) Hloopy) as Hey.
  f_equal. apply strictly_sorted_ext.
  - apply keys_sorted_strict; [apply sorted_keys_sorted|].
    by apply sorted_distinct_keys, Hdx.
  - apply keys_sorted_strict; [apply sorted_keys_sorted|].
    by apply sorted_distinct_keys, Hdy.
  - intros k. rewrite !dict_get_sorted.
    destruct (Hex k) as (Hnewx & Holdx & Houtx).
    destruct (Hey k) as (Hnewy & Holdy & Houty).
    destruct (decide (k ∈ to_words X (clean_epithet X epithet))) as [Hin|Hout].
    + assert (k ∈ set_order X (to_words X (clean_epithet X epithet))) as Hinx
        by by apply (set_order_elem X HX).
      assert (k ∈ set_order Y (to_words Y (clean_epithet Y epithet))) as Hiny
        by (apply (set_order_elem Y HY); by rewrite <- Hwords).
      destruct (dict_contains k prior) eqn:Ec;
        destruct OVERWRITE_EXISTING eqn:Eo.
      * destruct (Hnewx Hinx (or_intror eq_refl)) as (ex & Hsx & ->).
        destruct (Hnewy Hiny (or_intror eq_refl)) as (ey & Hsy & ->).
        specialize (Hsx wx). specialize (Hsy wx).
        rewrite (search_same_service X Y k wx Hsame) in Hsx. congruence.
      * by rewrite Holdx, Holdy.
      * destruct (Hnewx Hinx (or_introl eq_refl)) as (ex & Hsx & ->).
        destruct (Hnewy Hiny (or_introl eq_refl)) as (ey & Hsy & ->).
        specialize (Hsx wx). specialize (Hsy wx).
        rewrite (search_same_service X Y k wx Hsame) in Hsx. congruence.
      * destruct (Hnewx Hinx (or_introl eq_refl)) as (ex & Hsx & ->).
        destruct (Hnewy Hiny (or_introl eq_refl)) as (ey & Hsy & ->).
        specialize (Hsx wx). specialize (Hsy wx).
        rewrite (search_same_service X Y k wx Hsame) in Hsx. congruence.
    + rewrite Houtx, Houty; [done| |].
      * rewrite (set_order_elem Y HY), <- Hwords. done.
      * by rewrite (set_order_elem X HX).
Qed.

Lemma fake_stateless faults : stateless (Fake.env faults).
Proof. intros n m word. split; reflexivity. Qed.

Lemma fake_same_service faults :
  same_service (Fake.env faults) (Fake2.env_reversed faults).
Proof. split_and!; intros; reflexivity. Qed.

Lemma search_etymologies_ignores_iteration_order_witness :
  ∃ found_x found_y wx' wy',
    search_etymologies (Fake.env Fake.no_faults) false
      (JStr (str "vanhapiika")) (JObj [(str "kept", JNull)]) Fake.world0
    = (Ok found_x, wx')
    ∧ search_etymologies (Fake2.env_reversed Fake.no_faults) false
        (JStr (str "vanhapiika")) (JObj [(str "kept", JNull)])
        Fake.world_after_first
      = (Ok found_y, wy')
    ∧ wx' ≠ wy'
    ∧ found_x = found_y.
Proof.
  eexists _, _, _, _. split_and!.
  - vm_compute. reflexivity.
  - vm_compute. reflexivity.
  - discriminate.
  - apply (search_etymologies_ignores_iteration_order
             (Fake.env Fake.no_faults) (Fake2.env_reversed Fake.no_faults)
             false (str "vanhapiika") [(str "kept", JNull)]
             Fake.world0 Fake.world_after_first _ _
             (World (epithets_json Fake.world0) None
                [Get (QsAjaxResults (str "vanhapiika"));
                 Get (QsAjaxResults (str "piika"));
                 Get (QsResults (str "piika"));
                 Get (QsAjaxResults (str "vanha"));
                 Get (QsResults (str "vanha"))])
             (World (epithets_json Fake.world_after_first)
                (etymologies_json Fake.world_after_first)
                (trace Fake.world_after_first
                 ++ [Get (QsAjaxResults (str "vanha"));
                     Get (QsResults (str "vanha"));
                     Get (QsAjaxResults (str "piika"));
                     Get (QsResults (str "piika"));
                     Get (QsAjaxResults (str "vanhapiika"))]))).
    + apply fake_set_order_ok.
    + apply fake2_reversed_ok.
    + apply fake_same_service.
    + apply fake_stateless.
    + repeat constructor. intros H. apply elem_of_nil in H. exact H.
    + vm_compute. reflexivity.
    + vm_compute. reflexivity.
Defined.

(** ** update_etymologies *)

(** X14. When the epithets document does not yield a list of epithets (it
    is no dict, has no "epithets" key, or holds something that cannot be
    iterated there), or the etymologies document is no dict, the run
    raises at once: nothing is requested and nothing written. A missing
    "epithets" key is a [KeyError]. *)
Theorem update_etymologies_rejects_bad_input
    X OVERWRITE_EXISTING root epithets_root w :
  (∀ values epithets,
     py_getitem epithets_root EPITHETS_KEY = Ok values →
     py_iter values ≠ Ok epithets) →
  ∃ e,
    update_etymologies X OVERWRITE_EXISTING root epithets_root w = (Raise e, w)
    ∧ (e = AttributeError ∨ e = TypeError ∨ e = KeyError)
    ∧ (∀ r d, root = JObj r → epithets_root = JObj d →
              dict_get EPITHETS_KEY d = None → e = KeyError).
Proof.
  intros Hbad. unfold update_etymologies, bind, lift.
  destruct (setdefault_etymologies root) as [[etymologies d0]|e] eqn:Hset.
  2:{ exists e. split_and!; [done| |].
      - unfold setdefault_etymologies in Hset.
        destruct root; try (injection Hset as <-; by left).
        by destruct (dict_get ETYMOLOGIES_KEY d).
      - intros r d ->. simpl in Hset. by destruct (dict_get ETYMOLOGIES_KEY r). }
  destruct (py_getitem epithets_root EPITHETS_KEY) as [values|e] eqn:Hget.
  2:{ exists e. split_and!; [done| |].
      - unfold py_getitem in Hget.
        destruct epithets_root; try (injection Hget as <-; by right; left).
        destruct (dict_get EPITHETS_KEY d); [done|].
        injection Hget as <-. by right; right.
      - intros r d _ -> Hnone. simpl in Hget. rewrite Hnone in Hget.
        by injection Hget as <-. }
  destruct (py_iter values) as [epithets|e] eqn:Hiter.
  { by destruct (Hbad values epithets). }
  exists e. split_and!; [done| |].
  - unfold py_iter in Hiter.
    destruct values; try done; injection Hiter as <-; by right; left.
  - intros r d _ -> Hnone. simpl in Hget. by rewrite Hnone in Hget.
Qed.

Lemma update_etymologies_rejects_bad_input_witness :
  ∃ e,
    update_etymologies (Fake.env Fake.no_faults) false Fake.stored_doc
      (JObj [(str "epithet", JArr [JStr (str "akka")])]) Fake.world1
    = (Raise e, Fake.world1)
    ∧ (e = AttributeError ∨ e = TypeError ∨ e = KeyError)
    ∧ (∀ r d, Fake.stored_doc = JObj r →
              JObj [(str "epithet", JArr [JStr (str "akka")])] = JObj d →
              dict_get EPITHETS_KEY d = None → e = KeyError).
Proof.
  apply (update_etymologies_rejects_bad_input (Fake.env Fake.no_faults) false
           Fake.stored_doc
           (JObj [(str "epithet", JArr [JStr (str "akka")])]) Fake.world1).
  intros values epithets Hget. vm_compute in Hget. discriminate.
Defined.

(** X15. With an empty list of epithets the run returns without a request
    and without a write: the file is not created or rewritten, although
    the returned document has gained an empty "etymologies" entry when it
    had none. *)
Theorem update_etymologies_without_epithets
    X OVERWRITE_EXISTING d epithets_root values w :
  py_getitem epithets_root EPITHETS_KEY = Ok values →
  py_iter values = Ok [] →
  update_etymologies X OVERWRITE_EXISTING (JObj d) epithets_root w
  = (Ok (JObj (if dict_contains ETYMOLOGIES_KEY d then d
               else d ++ [(ETYMOLOGIES_KEY, JObj [])]),
         epithets_root), w).
Proof.
  intros Hget Hiter. unfold update_etymologies, bind, lift, ret; simpl.
  unfold dict_contains.
  destruct (dict_get ETYMOLOGIES_KEY d) as [etymologies|] eqn:E;
    rewrite Hget, Hiter; simpl; unfold root_with.
  - by rewrite (dict_set_same _ _ _ E).
  - by rewrite (dict_set_app_last _ _ _ _ E), (dict_set_absent _ _ _ E).
Qed.

Lemma update_etymologies_without_epithets_witness :
  update_etymologies (Fake.env Fake.no_faults) false (JObj [])
    (JObj [(EPITHETS_KEY, JArr [])]) Fake.world0
  = (Ok (JObj (if dict_contains ETYMOLOGIES_KEY [] then []
               else [] ++ [(ETYMOLOGIES_KEY, JObj [])]),
         JObj [(EPITHETS_KEY, JArr [])]), Fake.world0).
Proof.
  apply (update_etymologies_without_epithets (Fake.env Fake.no_faults) false
           [] (JObj [(EPITHETS_KEY, JArr [])]) (JArr []) Fake.world0).
  - reflexivity.
  - reflexivity.
Defined.

Lemma filter_writes_gets evs :
  Forall is_get evs → List.filter is_write_b evs = [].
Proof.
  induction 1 as [|ev evs Hev _ IH]; simpl; [done|].
  by destruct ev.
Qed.

Lemma update_loop_writes X ow root epithets etymologies w etymologies' w' :
  for_each epithets (update_epithet X ow root) etymologies w
  = (Ok etymologies', w') →
  ∃ evs, trace w' = trace w ++ evs
    ∧ length (List.filter is_write_b evs) = length epithets
    ∧ Forall (λ ev, ∀ doc, ev ≠ WriteFailed doc) evs.
Proof.
  revert etymologies w.
  induction epithets as [|e epithets IH]; intros etymologies w; simpl.
  - intros [= -> <-]. exists []. by rewrite app_nil_r.
  - intros (e1 & w1 & Hstep & Hrest)%bind_inv_ok.
    apply IH in Hrest as (evs & Ht & Hlen & Hnf).
    apply update_epithet_inv in Hstep as (w0 & Hres & _ & ->).
    pose proof (resolve_epithet_reads_only X ow e etymologies w)
      as [(_ & gets & Hgets & Hall) _].
    rewrite Hres in Hgets. simpl in Hgets, Ht.
    exists (gets ++ Write (root_with root e1) :: evs).
    rewrite Ht, Hgets, <- !app_assoc. split_and!; [done| |].
    + rewrite List.filter_app, (filter_writes_gets _ Hall). simpl.
      by rewrite Hlen.
    + apply Forall_app. split.
      * eapply Forall_impl; [exact Hall|]. by intros [r| |].
      * by constructor.
Qed.

(** X16. A run that returns has written the file exactly once per epithet
    of the input, repeated epithets included, and no write has failed. *)
Theorem one_write_per_epithet
    X OVERWRITE_EXISTING root epithets_root values epithets w r w' :
  py_getitem epithets_root EPITHETS_KEY = Ok values →
  py_iter values = Ok epithets →
  update_etymologies X OVERWRITE_EXISTING root epithets_root w = (Ok r, w') →
  ∃ evs, trace w' = trace w ++ evs
    ∧ length (List.filter is_write_b evs) = length epithets
    ∧ Forall (λ ev, ∀ doc, ev ≠ WriteFailed doc) evs.
Proof.
  intros Hget Hiter Hrun.
  apply update_etymologies_inv in Hrun
    as (etymologies & d0 & values' & epithets' & etymologies'
        & _ & Hget' & Hiter' & Hloop & _).
  rewrite Hget in Hget'. injection Hget' as <-.
  rewrite Hiter in Hiter'. injection Hiter' as <-.
  by apply update_loop_writes in Hloop.
Qed.

Lemma one_write_per_epithet_witness :
  ∃ evs, trace Fake.world_after_run = trace Fake.world0 ++ evs
    ∧ length (List.filter is_write_b evs)
      = length [JStr (str "Vanha akka!"); JStr (str "vanhapiika")]
    ∧ Forall (λ ev, ∀ doc, ev ≠ WriteFailed doc) evs.
Proof.
  apply (one_write_per_epithet (Fake.env Fake.no_faults) false (JObj [])
           Fake.epithets_doc
           (JArr [JStr (str "Vanha akka!"); JStr (str "vanhapiika")])
           [JStr (str "Vanha akka!"); JStr (str "vanhapiika")]
           Fake.world0 (Fake.root1, Fake.epithets_doc) Fake.world_after_run).
  - reflexivity.
  - reflexivity.
  - vm_compute. reflexivity.
Defined.

Lemma update_loop_store X ow root epithets d w etymologies' w' :
  for_each epithets (update_epithet X ow root) (JObj d) w
  = (Ok etymologies', w') →
  ∃ d', etymologies' = JObj d'
    ∧ dict_keys d `prefix_of` dict_keys d'
    ∧ (∀ s, JStr s ∉ epithets → dict_get s d' = dict_get s d)
    ∧ (∀ s, JStr s ∈ epithets → dict_contains s d' = true).
Proof.
  revert d w. induction epithets as [|e epithets IH]; intros d w; simpl.
  - intros [= <- <-]. exists d. split_and!; try done. by intros s ?%elem_of_nil.
  - intros (e1 & w1 & Hstep & Hrest)%bind_inv_ok.
    apply update_epithet_inv in Hstep as (w0 & Hres & _ & _).
    apply resolve_epithet_inv in Hres
      as (s & d0 & prior & items & -> & [= <-] & _ & -> & _).
    apply IH in Hrest as (d' & -> & Hpre & Hother & Hin).
    exists d'. split_and!; [done| | |].
    + etrans; [|exact Hpre]. rewrite dict_keys_set.
      destruct (dict_contains s d); [done|]. by apply prefix_app_r.
    + intros s' Hs'. rewrite Hother by (intros H; apply Hs'; by right).
      apply dict_get_set_ne. intros ->. apply Hs'. by left.
    + intros s' [[= ->]|Hs']%elem_of_cons; [|by apply Hin].
      apply dict_contains_keys.
      assert (s ∈ dict_keys (dict_set s (JObj (sorted items)) d)) as Hk.
      { apply dict_contains_keys. by rewrite dict_contains_set, str_eqb_refl. }
      destruct Hpre as [rest ->]. apply elem_of_app. by left.
Qed.

(** X17. A run that returns, over a non-empty list of epithets, leaves in
    the store every epithet that is not in the input with the submap it
    had, keeps the epithets of the store in their order, the new ones
    coming after them, and has an entry for every epithet of the input. *)
Theorem other_epithets_are_untouched
    X OVERWRITE_EXISTING root epithets_root values epithets w root' er w' :
  py_getitem epithets_root EPITHETS_KEY = Ok values →
  py_iter values = Ok epithets →
  epithets ≠ [] →
  update_etymologies X OVERWRITE_EXISTING root epithets_root w
  = (Ok (root', er), w') →
  ∃ store d0 store',
    setdefault_etymologies root = Ok (JObj store, d0)
    ∧ py_getitem root' ETYMOLOGIES_KEY = Ok (JObj store')
    ∧ dict_keys store `prefix_of` dict_keys store'
    ∧ (∀ s, JStr s ∉ epithets → dict_get s store' = dict_get s store)
    ∧ (∀ s, JStr s ∈ epithets → dict_contains s store' = true).
Proof.
  intros Hget Hiter Hne Hrun.
  apply update_etymologies_inv in Hrun
    as (etymologies & d0 & values' & epithets' & etymologies'
        & Hset & Hget' & Hiter' & Hloop & [= -> ->]).
  rewrite Hget in Hget'. injection Hget' as <-.
  rewrite Hiter in Hiter'. injection Hiter' as <-.
  assert (∃ store, etymologies = JObj store) as [store ->].
  { destruct epithets as [|e epithets]; [done|]. simpl in Hloop.
    apply bind_inv_ok in Hloop as (e1 & w1 & Hstep & _).
    apply update_epithet_inv in Hstep as (w0 & Hres & _ & _).
    apply resolve_epithet_inv in Hres as (s & d & _ & _ & _ & -> & _).
    by exists d. }
  apply update_loop_store in Hloop as (store' & -> & Hpre & Hother & Hin).
  exists store, d0, store'. split_and!; try done.
  unfold root_with, py_getitem. by rewrite dict_get_set_eq.
Qed.

Lemma other_epithets_are_untouched_witness :
  ∃ store d0 store',
    setdefault_etymologies Fake.stored_doc = Ok (JObj store, d0)
    ∧ py_getitem
        (match Fake.stored_run.1 with Ok (r, _) => r | Raise _ => JNull end)
        ETYMOLOGIES_KEY = Ok (JObj store')
    ∧ dict_keys store `prefix_of` dict_keys store'
    ∧ (∀ s, JStr s ∉ [JStr (str "Vanha akka!"); JStr (str "vanhapiika")] →
            dict_get s store' = dict_get s store)
    ∧ (∀ s, JStr s ∈ [JStr (str "Vanha akka!"); JStr (str "vanhapiika")] →
            dict_contains s store' = true).
Proof.
  apply (other_epithets_are_untouched (Fake.env Fake.no_faults) false
           Fake.stored_doc Fake.epithets_doc
           (JArr [JStr (str "Vanha akka!"); JStr (str "vanhapiika")])
           [JStr (str "Vanha akka!"); JStr (str "vanhapiika")]
           Fake.world1 _ Fake.epithets_doc Fake.stored_run.2).
  - reflexivity.
  - reflexivity.
  - discriminate.
  - vm_compute. reflexivity.
Defined.

(** ** Where a well-shaped input can raise *)







Section WellShaped.

Context (X : externals) (ow : bool).










End WellShaped.



Example timeout_is_the_last_event :
  let run := update_etymologies (Fake.env Fake.no_faults) false
               (JObj [(ETYMOLOGIES_KEY, Fake.etymologies1)])
               (JObj [(EPITHETS_KEY, JArr [JStr (str "piika virhe")])])
               Fake.world0 in
  last (trace run.2) = Some (Get (QsAjaxResults (str "virhe"))).
Proof. vm_compute. reflexivity. Qed.

(** ** Resuming *)

Lemma update_loop_again_persists X root epithets etymologies w :
  (∀ epithet, epithet ∈ epithets → resolved X epithet etymologies) →
  for_each epithets (update_epithet X false root) etymologies w
  = for_each epithets (persist_only X root) etymologies w.
Proof.
  revert w. induction epithets as [|e epithets IH]; intros w Hall; simpl;
    [done|].
  unfold bind. rewrite update_epithet_again by (apply Hall; by left).
  change (bind (persist X (root_with root etymologies)) (λ _, ret etymologies))
    with (persist_only X root e etymologies).
  destruct (persist_only X root e etymologies w) as [[e1|x] w1] eqn:Hp;
    [|done].
  assert (e1 = etymologies) as ->.
  { unfold persist_only, bind, ret in Hp.
    destruct (persist X (root_with root etymologies) w) as [[?|?] ?];
      congruence. }
  apply IH. intros e' He'. apply Hall. by right.
Qed.

(** X19. Resuming: once a loop has completed some epithets, a later loop
    with the overwrite policy off, started from the store the first one
    reached, only rewrites the file on the turns of these epithets, and
    goes on with the others as if it had started there. *)
Theorem resume_skips_completed_epithets
    X OVERWRITE_EXISTING root completed etymologies0 w0 etymologies1 w1
    root' rest w :
  for_each completed (update_epithet X OVERWRITE_EXISTING root)
    etymologies0 w0 = (Ok etymologies1, w1) →
  for_each (completed ++ rest) (update_epithet X false root') etymologies1 w
  = (etymologies <-
       for_each completed (persist_only X root') etymologies1 ;;
     for_each rest (update_epithet X false root') etymologies) w.
Proof.
  intros Hfirst.
  apply update_loop_resolved in Hfirst as [Hall _].
  rewrite for_each_app. unfold bind.
  by rewrite (update_loop_again_persists X root' completed etymologies1 w Hall).
Qed.

Lemma resume_skips_completed_epithets_witness :
  let X := Fake.env Fake.no_faults in
  for_each ([JStr (str "Vanha akka!")] ++ [JStr (str "vanhapiika")])
    (update_epithet X false Fake.root0) Fake.etymologies1
    Fake.world_after_first
  = (etymologies <-
       for_each [JStr (str "Vanha akka!")] (persist_only X Fake.root0)
         Fake.etymologies1 ;;
     for_each [JStr (str "vanhapiika")] (update_epithet X false Fake.root0)
       etymologies) Fake.world_after_first.
Proof.
  apply (resume_skips_completed_epithets (Fake.env Fake.no_faults) false
           Fake.root0 [JStr (str "Vanha akka!")] (JObj []) Fake.world0
           Fake.etymologies1 Fake.world_after_first).
  vm_compute. reflexivity.
Defined.

(** ** main *)

#[global] Instance leaves_files_preorder : PreOrder leaves_files.
Proof.
  split.
  - intros w. split; [done|]. exists []. by rewrite app_nil_r.
  - intros w1 w2 w3 (He1 & evs1 & Ht1 & Hf1) (He2 & evs2 & Ht2 & Hf2).
    split; [congruence|]. exists (evs1 ++ evs2).
    rewrite Ht2, Ht1, app_assoc. split; [done|].
    intros [H1 H2]%Forall_app. rewrite (Hf2 H2). by apply Hf1.
Qed.

Lemma reads_only_leaves_files w w' : reads_only w w' → leaves_files w w'.
Proof.
  intros [(He & evs & Ht & _) Hf]. split; [done|]. by exists evs.
Qed.

Lemma persist_leaves_files X doc : preserves leaves_files (persist X doc).
Proof.
  intros w. unfold persist.
  destruct (io_fault X (now w)); simpl;
    (split; [done|]; eexists [_]; split; [done|];
     by intros [[] _]%Forall_cons).
Qed.

Lemma update_etymologies_leaves_files X ow root epithets_root :
  preserves leaves_files (update_etymologies X ow root epithets_root).
Proof.
  unfold update_etymologies.
  apply preserves_bind; [apply _|apply preserves_lift, _|]. intros [etys d0].
  apply preserves_bind; [apply _|apply preserves_lift, _|]. intros values.
  apply preserves_bind; [apply _|apply preserves_lift, _|]. intros epithets.
  apply preserves_bind; [apply _| |intros ?; apply preserves_ret, _].
  apply preserves_for_each; [apply _|]. intros epithet etymologies.
  unfold update_epithet.
  apply preserves_bind; [apply _| |].
  - intros w. apply reads_only_leaves_files, resolve_epithet_reads_only.
  - intros v. apply preserves_bind; [apply _|apply persist_leaves_files|].
    intros _. apply preserves_ret, _.
Qed.

Lemma load_leaves_files X file : preserves leaves_files (load X file).
Proof.
  unfold load. destruct file as [text|]; [|apply preserves_raise, _].
  destruct (json_loads X text); [apply preserves_ret|apply preserves_raise];
    apply _.
Qed.

(** X20. Whatever its outcome, [main] never changes the epithets file, and
    changes the etymologies file only when it gets to write it: as long
    as the events of the run are requests, the file is as it was. *)
Theorem main_leaves_files X OVERWRITE_EXISTING w :
  epithets_json (main X OVERWRITE_EXISTING w).2 = epithets_json w
  ∧ ∃ evs,
      trace (main X OVERWRITE_EXISTING w).2 = trace w ++ evs
      ∧ (Forall is_get evs →
         etymologies_json (main X OVERWRITE_EXISTING w).2
         = etymologies_json w).
Proof.
  change (leaves_files w (main X OVERWRITE_EXISTING w).2).
  unfold main.
  apply (preserves_bind leaves_files); [apply load_leaves_files|].
  intros epithets_root.
  apply preserves_bind; [apply _| |].
  - intros w0. destruct (etymologies_json w0) as [text|].
    + apply load_leaves_files.
    + apply preserves_ret, _.
  - intros etymologies_root.
    apply preserves_bind; [apply _|apply update_etymologies_leaves_files|].
    intros _. apply preserves_ret, _.
Qed.



Lemma update_loop_last_write X ow root epithets etymologies w etymologies' w' :
  epithets ≠ [] →
  for_each epithets (update_epithet X ow root) etymologies w
  = (Ok etymologies', w') →
  last (trace w') = Some (Write (root_with root etymologies')).
Proof.
  revert etymologies w.
  induction epithets as [|e epithets IH]; intros etymologies w; [done|].
  intros _. simpl. intros (e1 & w1 & Hstep & Hrest)%bind_inv_ok.
  destruct epithets as [|e' epithets].
  - simpl in Hrest. injection Hrest as <- <-.
    apply update_epithet_inv in Hstep as (w0 & _ & _ & ->). simpl.
    by rewrite last_snoc.
  - by apply IH in Hrest.
Qed.

Lemma load_inv_ok X file doc w w' :
  load X file w = (Ok doc, w') →
  ∃ text, file = Some text ∧ json_loads X text = Some doc ∧ w' = w.
Proof.
  unfold load. destruct file as [text|]; [|done].
  destruct (json_loads X text) as [d|] eqn:E; [|done].
  intros [= <- <-]. by exists text.
Qed.

(** A run on the document a run returned, from any world, writes and asks
    nothing. *)
Lemma rerun_writes_only X ow root epithets_root w root1 er w1 w2 :
  update_etymologies X ow root epithets_root w = (Ok (root1, er), w1) →
  extends is_write w2 (update_etymologies X false root1 epithets_root w2).2.
Proof.
  intros Hrun.
  apply update_etymologies_inv in Hrun
    as (etymologies & d0 & values & epithets & etymologies'
        & Hset & Hget & Hiter & Hloop & [= -> ->]).
  pose proof (update_loop_resolved X _ _ _ _ _ _ _ Hloop) as [Hall _].
  unfold update_etymologies.
  unfold bind at 1, lift at 1.
  unfold setdefault_etymologies, root_with. rewrite dict_get_set_eq.
  unfold bind at 1, lift at 1. rewrite Hget.
  unfold bind at 1, lift at 1. rewrite Hiter.
  pose proof (update_loop_again_writes X
                (dict_set ETYMOLOGIES_KEY etymologies' d0)
                epithets etymologies' w2 Hall) as Hw.
  unfold bind, ret.
  by destruct (for_each epithets _ etymologies' w2) as [[e|x] w3].
Qed.

(** X22. Running the program again: after a run of [main] that completed, a
    second run with the overwrite policy off sends no request, provided
    the document the first run wrote last is read back from its
    serialization. *)
Theorem main_again_sends_no_request X OVERWRITE_EXISTING w w1 :
  main X OVERWRITE_EXISTING w = (Ok (), w1) →
  (∀ doc, last (trace w1) = Some (Write doc) →
          json_loads X (json_dumps X doc) = Some doc) →
  extends is_write w1 (main X false w1).2.
Proof.
  intros Hmain Hload. unfold main in Hmain.
  apply bind_inv_ok in Hmain as (epithets_root & w0 & Hepi & Hrest).
  apply load_inv_ok in Hepi as (text & Htext & Hparse & ->).
  apply bind_inv_ok in Hrest as (root & w0 & Hety & Hrest).
  assert (w0 = w
          ∧ (etymologies_json w = None ∧ root = JObj []
             ∨ ∃ text', etymologies_json w = Some text'
                        ∧ json_loads X text' = Some root))
    as [-> Hroot].
  { destruct (etymologies_json w) as [text'|] eqn:E.
    - apply load_inv_ok in Hety as (t & [= <-] & Hp & ->).
      split; [done|]. right. by exists text'.
    - apply ret_inv in Hety as [-> ->]. split; [done|]. by left. }
  clear Hety.
  apply bind_inv_ok in Hrest as ([root1 er] & w2 & Hrun & [_ ->]%ret_inv).
  pose proof (update_etymologies_leaves_files X OVERWRITE_EXISTING root
                epithets_root w) as [Hsame _].
  rewrite Hrun in Hsame. simpl in Hsame.
  pose proof Hrun as Hinv.
  apply update_etymologies_inv in Hinv
    as (etymologies & d0 & values & epithets & etymologies'
        & Hset & Hget & Hiter & Hloop & [= -> ->]).
  unfold main, bind at 1. rewrite Hsame, Htext. simpl load at 1.
  rewrite Hparse. unfold ret at 1. unfold bind at 1.
  destruct epithets as [|e epithets].
  - simpl in Hloop. injection Hloop as <- <-.
    assert (∀ r, r = root →
              extends is_write w
                ((_ <- update_etymologies X false r epithets_root ;; ret ()) w).2)
      as Hquiet.
    { intros r ->. unfold update_etymologies.
      unfold bind at 2, lift at 1. rewrite Hset.
      unfold bind at 2, lift at 1. rewrite Hget.
      unfold bind at 2, lift at 1. rewrite Hiter. simpl. reflexivity. }
    destruct Hroot as [[-> ->]|(text' & -> & Hp)].
    + by apply Hquiet.
    + simpl. rewrite Hp. by apply Hquiet.
  - assert (e :: epithets ≠ []) as Hne by done.
    rewrite (update_loop_file X _ _ _ _ _ _ _ Hne Hloop).
    simpl load.
    rewrite (Hload _ (update_loop_last_write X _ _ _ _ _ _ _ Hne Hloop)).
    unfold ret at 1.
    pose proof (rerun_writes_only X _ _ _ _ _ _ _ w2 Hrun) as Hw.
    unfold bind, ret.
    by destruct (update_etymologies X false _ epithets_root w2) as [[?|?] ?].
Qed.

Lemma main_again_sends_no_request_witness :
  extends is_write Fake.world_after_run
    (main (Fake2.env_reloading Fake.no_faults) false Fake.world_after_run).2.
Proof.
  apply (main_again_sends_no_request (Fake2.env_reloading Fake.no_faults)
           false Fake.world0 Fake.world_after_run).
  - vm_compute. reflexivity.
  - intros doc Hdoc. vm_compute in Hdoc. injection Hdoc as <-.
    vm_compute. reflexivity.
Defined.

Example main_again_on_fake :
  main (Fake2.env_reloading Fake.no_faults) false Fake.world_after_run
  = (Ok (),
     World (epithets_json Fake.world_after_run)
       (etymologies_json Fake.world_after_run)
       (trace Fake.world_after_run ++ [Write Fake.root1; Write Fake.root1])).
Proof. vm_compute. reflexivity. Qed.
